(** * View nodes: delegation, capability probes and the subscription lifecycle

    A shallow embedding of [src/views/nodes/viewNode.ts].

    The TypeScript classes [ViewNode] and [SubscribeableViewNode] are
    objects with mutable fields, methods that return promises and [async]
    methods that suspend at [await].  The embedding keeps that shape:

    - a node reference ([ViewNode]) is the node's identity together with
      the two [readonly] constructor parameters [view] and [parent];
    - the mutable fields of every node live in a store keyed by identity
      ([nodes]), the host views in another ([views]);
    - promises live in a promise store; an [await] registers the rest of
      the method, a continuation ([Cont]), on the awaited promise, and the
      job queue ([microtasks]) holds the continuations that are ready;
    - every observable call (to the subtype's [subscribe], to the host's
      [refreshNode], to a [Disposable]'s [dispose], to an optional hook)
      is appended to a [trace], together with the entry of a method
      ([EvCall]) and the end of an [async] body ([EvReturn], [EvThrow]).

    What is left out: the [@debug()] decorator, which only logs, and
    exceptions thrown by the host or by a [Disposable].  The string forms
    ([toString]) and the [ContextValues] table come after the lifecycle,
    on their own.  A promise takes one job to
    deliver its outcome to each reaction; the extra turns that the
    language spends inside [then] chains are not counted. *)

From stdpp Require Import gmap strings list fin_maps.

Set Default Proof Using "Type".

(** ** Identifiers *)

Abbreviation NodeId := nat.
Abbreviation ViewId := nat.
Abbreviation PromiseId := nat.
Abbreviation ErrorId := nat.

(** ** Dynamic values, for the duck-typed capability probes *)

Inductive JsValue :=
| VBool (b : bool)
| VNumber (z : Z)
| VString (s : string)
| VFunction (f : nat)
| VObject
| VNull.

(** A JavaScript object seen through its members: a member that is absent
    (or holds [undefined]) has no entry.  The capability probes take the
    node or the view they test as such an object. *)
Abbreviation JsObject := (gmap string JsValue).

(** [typeof v], where [None] is [undefined]. *)
Definition typeof (v : option JsValue) : string :=
  match v with
  | None => "undefined"
  | Some (VBool _) => "boolean"
  | Some (VNumber _) => "number"
  | Some (VString _) => "string"
  | Some (VFunction _) => "function"
  | Some VObject => "object"
  | Some VNull => "object"
  end.

Module Functions.
(** Modelled from the spec: [Functions.is(o, prop)] of [src/system] is
    not part of the sources at hand; a probe built on it "returns true
    iff the member exists", so [is_ o prop] holds when reading [prop] on
    [o] gives something else than [undefined]. *)
Definition is_ (o : JsObject) (prop : string) : bool :=
  match o !! prop with
  | Some _ => true
  | None => false
  end.
End Functions.

Definition nodeSupportsClearing (node : JsObject) : bool :=
  String.eqb (typeof (node !! "clear")) "function".

Definition nodeSupportsConditionalDismissal (node : JsObject) : bool :=
  String.eqb (typeof (node !! "canDismiss")) "function".

Module PageableViewNode.
Definition is_ (node : JsObject) : bool := Functions.is_ node "loadMore".
End PageableViewNode.

(** ** Views (the host) *)

Record View := mkView {
  visible : bool;
  autoRefresh : bool;
  (* the optional members of the host: onDidChangeAutoRefresh, dismissNode *)
  props : JsObject
}.

Definition viewSupportsAutoRefresh (view : View) : bool :=
  Functions.is_ (props view) "onDidChangeAutoRefresh".

Definition viewSupportsNodeDismissal (view : View) : bool :=
  String.eqb (typeof (props view !! "dismissNode")) "function".

(** ** Nodes *)

Inductive TreeItemCollapsibleState := CollapsibleNone | Collapsed | Expanded.

(** A reference to a node: its identity and its [readonly] [view] and
    [parent].  Two references denote the same object when their [id]s are
    equal ([===] on objects). *)
#[warnings="-register-all"]
Inductive ViewNode := mkViewNode {
  id : NodeId;
  view : ViewId;
  parent : option ViewNode
}.

Inductive ListenerKind := OnDidChangeVisibility | OnDidChangeNodeState | OnDidChangeAutoRefresh.

(** What a [Disposable] releases: a listener registered on the host by the
    constructor, or a resource handed out by the subtype's [subscribe]. *)
Inductive Disposable :=
| DListener (k : ListenerKind) (view : ViewId) (node : NodeId)
| DResource (r : nat).

(** The mutable fields of a node.  The two gate fields are the per-instance
    slots the [@gate()] decorator keeps for [triggerChange] and
    [ensureSubscription]; [onStateChanged] and [onParentStateChanged] tell
    whether the subtype defines the optional hook.  [_disposable] is
    [Disposable.from(...disposables)], kept as the list of the
    registrations the composite has still to dispose: all of them from
    the constructor on, none once the composite has been disposed. *)
Record NodeFields := mkNodeFields {
  splatted : bool;
  gate_triggerChange : option PromiseId;
  _disposable : option (list Disposable);
  _subscription : option PromiseId;
  _canSubscribe : bool;
  _state : option TreeItemCollapsibleState;
  gate_ensureSubscription : option PromiseId;
  onStateChanged : bool;
  onParentStateChanged : bool
}.

(** The field initialisers of the two classes. *)
Definition init_fields : NodeFields :=
  {| splatted := false; gate_triggerChange := None; _disposable := None;
     _subscription := None; _canSubscribe := true; _state := None;
     gate_ensureSubscription := None;
     onStateChanged := false; onParentStateChanged := false |}.

Global Instance NodeFields_inhabited : Inhabited NodeFields := populate init_fields.
Global Instance View_inhabited : Inhabited View :=
  populate {| visible := false; autoRefresh := false; props := ∅ |}.

Definition set_subscription (v : option PromiseId) (f : NodeFields) : NodeFields :=
  {| splatted := splatted f; gate_triggerChange := gate_triggerChange f;
     _disposable := _disposable f; _subscription := v;
     _canSubscribe := _canSubscribe f; _state := _state f;
     gate_ensureSubscription := gate_ensureSubscription f;
     onStateChanged := onStateChanged f;
     onParentStateChanged := onParentStateChanged f |}.

Definition set_canSubscribe_field (v : bool) (f : NodeFields) : NodeFields :=
  {| splatted := splatted f; gate_triggerChange := gate_triggerChange f;
     _disposable := _disposable f; _subscription := _subscription f;
     _canSubscribe := v; _state := _state f;
     gate_ensureSubscription := gate_ensureSubscription f;
     onStateChanged := onStateChanged f;
     onParentStateChanged := onParentStateChanged f |}.

Definition set_state (v : option TreeItemCollapsibleState) (f : NodeFields) : NodeFields :=
  {| splatted := splatted f; gate_triggerChange := gate_triggerChange f;
     _disposable := _disposable f; _subscription := _subscription f;
     _canSubscribe := _canSubscribe f; _state := v;
     gate_ensureSubscription := gate_ensureSubscription f;
     onStateChanged := onStateChanged f;
     onParentStateChanged := onParentStateChanged f |}.

Definition set_disposable (v : option (list Disposable)) (f : NodeFields) : NodeFields :=
  {| splatted := splatted f; gate_triggerChange := gate_triggerChange f;
     _disposable := v; _subscription := _subscription f;
     _canSubscribe := _canSubscribe f; _state := _state f;
     gate_ensureSubscription := gate_ensureSubscription f;
     onStateChanged := onStateChanged f;
     onParentStateChanged := onParentStateChanged f |}.

(** The methods behind a gate. *)
Inductive Gated := GTriggerChange | GEnsureSubscription.

Definition gate (m : Gated) (f : NodeFields) : option PromiseId :=
  match m with
  | GTriggerChange => gate_triggerChange f
  | GEnsureSubscription => gate_ensureSubscription f
  end.

Definition set_gate (m : Gated) (v : option PromiseId) (f : NodeFields) : NodeFields :=
  match m with
  | GTriggerChange =>
    {| splatted := splatted f; gate_triggerChange := v;
       _disposable := _disposable f; _subscription := _subscription f;
       _canSubscribe := _canSubscribe f; _state := _state f;
       gate_ensureSubscription := gate_ensureSubscription f;
       onStateChanged := onStateChanged f;
       onParentStateChanged := onParentStateChanged f |}
  | GEnsureSubscription =>
    {| splatted := splatted f; gate_triggerChange := gate_triggerChange f;
       _disposable := _disposable f; _subscription := _subscription f;
       _canSubscribe := _canSubscribe f; _state := _state f;
       gate_ensureSubscription := v;
       onStateChanged := onStateChanged f;
       onParentStateChanged := onParentStateChanged f |}
  end.

(** ** Promises, continuations and the trace *)

(** What a promise settles to.  Every promise of this file carries either
    nothing ([void], [undefined]) or a [Disposable]. *)
Inductive Outcome :=
| Fulfilled (v : option Disposable)
| Rejected (e : ErrorId).

(** The rest of a method after an [await] (or, for [KGate], the reaction
    the gate attaches to the promise of the gated call). *)
Inductive Cont :=
| KUnsubscribe (self : NodeId) (ret : PromiseId)
| KEnsureUnsubscribed (self : NodeId) (ret : PromiseId)
| KEnsureSubscribed (self : NodeId) (ret : PromiseId)
| KGate (m : Gated) (self : NodeId) (g : PromiseId).

Inductive PromiseState :=
| Pending (reactions : list Cont)
| Settled (o : Outcome).

Global Instance PromiseState_inhabited : Inhabited PromiseState := populate (Pending []).

Inductive Method := MTriggerChange | MEnsureSubscription | MUnsubscribe.

Inductive Event :=
| EvCall (m : Method) (self : NodeId)
| EvReturn (m : Method) (self : NodeId)
| EvThrow (m : Method) (self : NodeId) (e : ErrorId)
| EvSubscribe (self : NodeId) (k : nat)
| EvRefreshNode (view : ViewId) (target : NodeId) (reset force : bool)
| EvDispose (d : Disposable)
| EvOnStateChanged (self : NodeId) (state : TreeItemCollapsibleState)
| EvOnParentStateChanged (self : NodeId) (state : TreeItemCollapsibleState)
| EvListen (d : Disposable).

Global Instance ListenerKind_eq_dec : EqDecision ListenerKind.
Proof. solve_decision. Defined.
Global Instance Disposable_eq_dec : EqDecision Disposable.
Proof. solve_decision. Defined.
Global Instance Outcome_eq_dec : EqDecision Outcome.
Proof. solve_decision. Defined.
Global Instance Method_eq_dec : EqDecision Method.
Proof. solve_decision. Defined.
Global Instance TreeItemCollapsibleState_eq_dec : EqDecision TreeItemCollapsibleState.
Proof. solve_decision. Defined.
Global Instance Event_eq_dec : EqDecision Event.
Proof. solve_decision. Defined.

(** ** The state of the program *)

Record State := mkState {
  nodes : gmap NodeId NodeFields;
  views : gmap ViewId View;
  promises : gmap PromiseId PromiseState;
  next_promise : PromiseId;
  microtasks : list (Cont * Outcome);
  subscribe_calls : nat;
  trace : list Event
}.

(** Reading a field of a node, a view, a promise. *)
Abbreviation fields st n := (nodes st !!! (n : NodeId)).
Abbreviation the_view st v := (views st !!! (v : ViewId)).
Abbreviation promise st p := (promises st !!! (p : PromiseId)).

(** *** State updates *)

Definition upd_node (n : NodeId) (f : NodeFields -> NodeFields) (st : State) : State :=
  {| nodes := <[n := f (fields st n)]> (nodes st); views := views st;
     promises := promises st; next_promise := next_promise st;
     microtasks := microtasks st; subscribe_calls := subscribe_calls st;
     trace := trace st |}.

Definition set_promise (p : PromiseId) (ps : PromiseState) (st : State) : State :=
  {| nodes := nodes st; views := views st;
     promises := <[p := ps]> (promises st); next_promise := next_promise st;
     microtasks := microtasks st; subscribe_calls := subscribe_calls st;
     trace := trace st |}.

Definition enqueue (js : list (Cont * Outcome)) (st : State) : State :=
  {| nodes := nodes st; views := views st;
     promises := promises st; next_promise := next_promise st;
     microtasks := microtasks st ++ js; subscribe_calls := subscribe_calls st;
     trace := trace st |}.

Definition dequeue (st : State) : State :=
  {| nodes := nodes st; views := views st;
     promises := promises st; next_promise := next_promise st;
     microtasks := tail (microtasks st); subscribe_calls := subscribe_calls st;
     trace := trace st |}.

Definition emit (e : Event) (st : State) : State :=
  {| nodes := nodes st; views := views st;
     promises := promises st; next_promise := next_promise st;
     microtasks := microtasks st; subscribe_calls := subscribe_calls st;
     trace := trace st ++ [e] |}.

Definition count_subscribe (st : State) : State :=
  {| nodes := nodes st; views := views st;
     promises := promises st; next_promise := next_promise st;
     microtasks := microtasks st; subscribe_calls := S (subscribe_calls st);
     trace := trace st |}.

Definition alloc (ps : PromiseState) (st : State) : State :=
  {| nodes := nodes st; views := views st;
     promises := <[next_promise st := ps]> (promises st);
     next_promise := S (next_promise st);
     microtasks := microtasks st; subscribe_calls := subscribe_calls st;
     trace := trace st |}.

(** The host owns the [visible] flag of a view: it assigns it, and then
    fires [onDidChangeVisibility]. *)
Definition set_visible (v : ViewId) (b : bool) (st : State) : State :=
  {| nodes := nodes st;
     views := <[v := {| visible := b; autoRefresh := autoRefresh (the_view st v);
                        props := props (the_view st v) |}]> (views st);
     promises := promises st; next_promise := next_promise st;
     microtasks := microtasks st; subscribe_calls := subscribe_calls st;
     trace := trace st |}.

(** [new Promise] / the promise of an [async] call: a fresh identifier. *)
Definition new_promise (ps : PromiseState) (st : State) : PromiseId * State :=
  (next_promise st, alloc ps st).

(** [await p] with the rest of the method [k]: the continuation never runs
    in the current turn; it is queued at once when [p] is already settled
    and stored on [p] otherwise. *)
Definition await (p : PromiseId) (k : Cont) (st : State) : State :=
  match promise st p with
  | Pending rs => set_promise p (Pending (rs ++ [k])) st
  | Settled o => enqueue [(k, o)] st
  end.

(** Settling a promise queues its reactions; settling twice does nothing. *)
Definition settle (p : PromiseId) (o : Outcome) (st : State) : State :=
  match promise st p with
  | Pending rs => enqueue (map (fun k => (k, o)) rs) (set_promise p (Settled o) st)
  | Settled _ => st
  end.

(** ** The external collaborators *)

(** What one call of the subtype's [subscribe()] does: it throws, it
    returns a [Disposable] or [undefined], or it returns a promise, still
    pending ([None]) or already settled. *)
Inductive SubResult :=
| SubThrow (e : ErrorId)
| SubReturn (v : option Disposable)
| SubPromise (o : option Outcome).

(** Modelled from the spec: [View.refreshNode] of [src/views/viewBase] is
    the host's; it "asks the owning host to refresh this node" and returns
    a completion signal, here a promise the host settles later. *)
Definition refreshNode (v : ViewId) (node : NodeId) (reset force : bool)
    (st : State) : PromiseId * State :=
  new_promise (Pending []) (emit (EvRefreshNode v node reset force) st).

(** Modelled from the spec: the [@gate()] decorator of [src/system] keeps
    one in-flight slot per node instance and method, whatever the
    arguments: a call that arrives while the slot is taken "joins the
    first" and gets the promise in the slot without running the method;
    otherwise the method runs, the slot takes the promise handed to the
    caller, and the slot is emptied when the method's own promise
    settles. *)
Definition gated (m : Gated) (self : NodeId)
    (body : State -> PromiseId * State) (st : State) : PromiseId * State :=
  match gate m (fields st self) with
  | Some g => (g, st)
  | None =>
    let '(r, st) := body st in
    let '(g, st) := new_promise (Pending []) st in
    let st := upd_node self (set_gate m (Some g)) st in
    (g, await r (KGate m self g) st)
  end.

(** ** [ViewNode] *)

Fixpoint getParent (st : State) (self : ViewNode) : option ViewNode :=
  match parent self with
  | Some p => if splatted (fields st (id p)) then getParent st p else Some p
  | None => None
  end.

Fixpoint triggerChange (self : ViewNode) (reset force : bool) (st : State)
    : PromiseId * State :=
  gated GTriggerChange (id self)
    (fun st =>
       match splatted (fields st (id self)), parent self with
       | true, Some p => triggerChange p reset force st
       | _, _ => refreshNode (view self) (id self) reset force st
       end)
    (emit (EvCall MTriggerChange (id self)) st).

(** ** [SubscribeableViewNode] *)

Section Subscribeable.

(** [subscribe self k] is what the [k]-th call of [subscribe()] in the
    run does, on the node [self]. *)
Variable subscribe : NodeId -> nat -> SubResult.

Definition new_SubscribeableViewNode (self : ViewNode) (st : State) : State :=
  let disposables :=
    [DListener OnDidChangeVisibility (view self) (id self);
     DListener OnDidChangeNodeState (view self) (id self)] ++
    (if viewSupportsAutoRefresh (the_view st (view self))
     then [DListener OnDidChangeAutoRefresh (view self) (id self)] else []) in
  upd_node (id self) (set_disposable (Some disposables))
    (foldl (fun st d => emit (EvListen d) st) st disposables).

Definition unsubscribe (self : ViewNode) (st : State) : PromiseId * State :=
  let st := emit (EvCall MUnsubscribe (id self)) st in
  let '(ret, st) := new_promise (Pending []) st in
  match _subscription (fields st (id self)) with
  | Some subscriptionPromise =>
    let st := upd_node (id self) (set_subscription None) st in
    (ret, await subscriptionPromise (KUnsubscribe (id self) ret) st)
  | None =>
    (ret, settle ret (Fulfilled None) (emit (EvReturn MUnsubscribe (id self)) st))
  end.

Definition ensureSubscription_body (self : ViewNode) (st : State)
    : PromiseId * State :=
  let '(ret, st) := new_promise (Pending []) st in
  if negb (_canSubscribe (fields st (id self)))
     || negb (visible (the_view st (view self)))
     || (viewSupportsAutoRefresh (the_view st (view self))
         && negb (autoRefresh (the_view st (view self))))
  then
    let '(u, st) := unsubscribe self st in
    (ret, await u (KEnsureUnsubscribed (id self) ret) st)
  else
    match _subscription (fields st (id self)) with
    | Some _ =>
      (ret, settle ret (Fulfilled None) (emit (EvReturn MEnsureSubscription (id self)) st))
    | None =>
      let k := subscribe_calls st in
      let st := emit (EvSubscribe (id self) k) (count_subscribe st) in
      match subscribe (id self) k with
      | SubThrow e =>
        (ret, settle ret (Rejected e) (emit (EvThrow MEnsureSubscription (id self) e) st))
      | SubReturn v =>
        let '(p, st) := new_promise (Settled (Fulfilled v)) st in
        let st := upd_node (id self) (set_subscription (Some p)) st in
        (ret, await p (KEnsureSubscribed (id self) ret) st)
      | SubPromise o =>
        let '(p, st) :=
          new_promise (match o with Some o => Settled o | None => Pending [] end) st in
        let st := upd_node (id self) (set_subscription (Some p)) st in
        (ret, await p (KEnsureSubscribed (id self) ret) st)
      end
    end.

Definition ensureSubscription (self : ViewNode) (st : State) : PromiseId * State :=
  gated GEnsureSubscription (id self) (ensureSubscription_body self)
    (emit (EvCall MEnsureSubscription (id self)) st).

(** [this._disposable.dispose()] runs the composite that
    [Disposable.from] built: it disposes the registrations it combines
    and lets go of them, so that the field still holds the composite
    ([!== undefined]) but a later [dispose()] finds nothing left in it. *)
Definition dispose (self : ViewNode) (st : State) : State :=
  let st := snd (unsubscribe self st) in
  match _disposable (fields st (id self)) with
  | Some ds =>
    upd_node (id self) (set_disposable (Some []))
      (foldl (fun st d => emit (EvDispose d) st) st ds)
  | None => st
  end.

Definition canSubscribe (st : State) (self : ViewNode) : bool :=
  _canSubscribe (fields st (id self)).

Definition set_canSubscribe (self : ViewNode) (value : bool) (st : State) : State :=
  if Bool.eqb (_canSubscribe (fields st (id self))) value then st
  else
    let st := upd_node (id self) (set_canSubscribe_field value) st in
    let st := snd (ensureSubscription self st) in
    if value then snd (triggerChange self false false st) else st.

Definition onVisibilityChanged (self : ViewNode) (e_visible : bool) (st : State) : State :=
  let st := snd (ensureSubscription self st) in
  if e_visible then snd (triggerChange self false false st) else st.


Definition onNodeStateChanged (self : ViewNode)
    (e_element : NodeId) (e_state : TreeItemCollapsibleState) (st : State) : State :=
  if decide (e_element = id self) then
    let st := upd_node (id self) (set_state (Some e_state)) st in
    if onStateChanged (fields st (id self))
    then emit (EvOnStateChanged (id self) e_state) st
    else st
  else if decide (Some e_element = id <$> parent self) then
    if onParentStateChanged (fields st (id self))
    then emit (EvOnParentStateChanged (id self) e_state) st
    else st
  else st.

(** ** The job queue *)

(** Resuming a suspended method with the outcome of the promise it
    awaited. *)
Definition resume (k : Cont) (o : Outcome) (st : State) : State :=
  match k with
  | KUnsubscribe self ret =>
    match o with
    | Fulfilled subscription =>
      let st := match subscription with
                | Some d => emit (EvDispose d) st
                | None => st
                end in
      settle ret (Fulfilled None) (emit (EvReturn MUnsubscribe self) st)
    | Rejected e => settle ret (Rejected e) (emit (EvThrow MUnsubscribe self e) st)
    end
  | KEnsureUnsubscribed self ret
  | KEnsureSubscribed self ret =>
    match o with
    | Fulfilled _ =>
      settle ret (Fulfilled None) (emit (EvReturn MEnsureSubscription self) st)
    | Rejected e =>
      settle ret (Rejected e) (emit (EvThrow MEnsureSubscription self e) st)
    end
  | KGate m self g => settle g o (upd_node self (set_gate m None) st)
  end.

(** One job of the queue. *)
Definition run_microtask (st : State) : State :=
  match microtasks st with
  | [] => st
  | (k, o) :: _ => resume k o (dequeue st)
  end.

(** The queue is run until it is empty before the host gets control
    again; [fuel] bounds the number of jobs. *)
Fixpoint drain (fuel : nat) (st : State) : State :=
  match fuel with
  | O => st
  | S fuel =>
    match microtasks st with
    | [] => st
    | _ => drain fuel (run_microtask st)
    end
  end.

End Subscribeable.

(** ** Context values and string forms *)

(** The [ContextValues] enumeration and the string each member stands
    for. *)
Inductive ContextValues :=
| ActiveFileHistory
| ActiveLineHistory
| Branch
| Branches
| BranchStatusAheadOfUpstream
| BranchStatusBehindUpstream
| BranchStatusFiles
| Commit
| Commits
| Compare
| CompareBranch
| ComparePicker
| ComparePickerWithRef
| CompareResults
| Contributor
| Contributors
| File
| FileHistory
| Folder
| LineHistory
| Message
| Pager
| PullRequest
| Reflog
| ReflogRecord
| Remote
| Remotes
| Repositories
| Repository
| RepositoryFolder
| ResultsCommits
| ResultsFile
| ResultsFiles
| Search
| SearchResults
| Stash
| StashFile
| Stashes
| StatusFileCommits
| StatusFiles
| StatusAheadOfUpstream
| StatusBehindUpstream
| StatusNoUpstream
| StatusSameAsUpstream
| Tag
| Tags.

Definition ContextValues_value (c : ContextValues) : string :=
  match c with
  | ActiveFileHistory => "gitlens:history:active:file"
  | ActiveLineHistory => "gitlens:history:active:line"
  | Branch => "gitlens:branch"
  | Branches => "gitlens:branches"
  | BranchStatusAheadOfUpstream => "gitlens:status-branch:upstream:ahead"
  | BranchStatusBehindUpstream => "gitlens:status-branch:upstream:behind"
  | BranchStatusFiles => "gitlens:status-branch:files"
  | Commit => "gitlens:commit"
  | Commits => "gitlens:commits"
  | Compare => "gitlens:compare"
  | CompareBranch => "gitlens:compare:branch"
  | ComparePicker => "gitlens:compare:picker"
  | ComparePickerWithRef => "gitlens:compare:picker:ref"
  | CompareResults => "gitlens:compare:results"
  | Contributor => "gitlens:contributor"
  | Contributors => "gitlens:contributors"
  | File => "gitlens:file"
  | FileHistory => "gitlens:history:file"
  | Folder => "gitlens:folder"
  | LineHistory => "gitlens:history:line"
  | Message => "gitlens:message"
  | Pager => "gitlens:pager"
  | PullRequest => "gitlens:pullrequest"
  | Reflog => "gitlens:reflog"
  | ReflogRecord => "gitlens:reflog-record"
  | Remote => "gitlens:remote"
  | Remotes => "gitlens:remotes"
  | Repositories => "gitlens:repositories"
  | Repository => "gitlens:repository"
  | RepositoryFolder => "gitlens:repo-folder"
  | ResultsCommits => "gitlens:results:commits"
  | ResultsFile => "gitlens:file:results"
  | ResultsFiles => "gitlens:results:files"
  | Search => "gitlens:search"
  | SearchResults => "gitlens:search:results"
  | Stash => "gitlens:stash"
  | StashFile => "gitlens:file:stash"
  | Stashes => "gitlens:stashes"
  | StatusFileCommits => "gitlens:status:file:commits"
  | StatusFiles => "gitlens:status:files"
  | StatusAheadOfUpstream => "gitlens:status:upstream:ahead"
  | StatusBehindUpstream => "gitlens:status:upstream:behind"
  | StatusNoUpstream => "gitlens:status:upstream:none"
  | StatusSameAsUpstream => "gitlens:status:upstream:same"
  | Tag => "gitlens:tag"
  | Tags => "gitlens:tags"
  end.

(** The members, in the order of the source. *)
Definition ContextValues_all : list ContextValues :=
  [ActiveFileHistory;
   ActiveLineHistory;
   Branch;
   Branches;
   BranchStatusAheadOfUpstream;
   BranchStatusBehindUpstream;
   BranchStatusFiles;
   Commit;
   Commits;
   Compare;
   CompareBranch;
   ComparePicker;
   ComparePickerWithRef;
   CompareResults;
   Contributor;
   Contributors;
   File;
   FileHistory;
   Folder;
   LineHistory;
   Message;
   Pager;
   PullRequest;
   Reflog;
   ReflogRecord;
   Remote;
   Remotes;
   Repositories;
   Repository;
   RepositoryFolder;
   ResultsCommits;
   ResultsFile;
   ResultsFiles;
   Search;
   SearchResults;
   Stash;
   StashFile;
   Stashes;
   StatusFileCommits;
   StatusFiles;
   StatusAheadOfUpstream;
   StatusBehindUpstream;
   StatusNoUpstream;
   StatusSameAsUpstream;
   Tag;
   Tags].





(** * Specification-side definitions and concrete scenarios *)

(** Eligibility as the specification words it: [canSubscribe], and the
    view is visible, and the view does not support auto-refresh or its
    [autoRefresh] flag is set. *)
Definition eligible (st : State) (self : ViewNode) : bool :=
  _canSubscribe (fields st (id self))
  && visible (the_view st (view self))
  && (negb (viewSupportsAutoRefresh (the_view st (view self)))
      || autoRefresh (the_view st (view self))).

(** The three subscription states of the specification, read off the
    subscription slot. *)
Inductive SubscriptionState := Unsubscribed | SubscriptionPending | Subscribed.

Definition subscription_state (st : State) (self : ViewNode) : SubscriptionState :=
  match _subscription (fields st (id self)) with
  | None => Unsubscribed
  | Some p =>
    match promise st p with
    | Pending _ => SubscriptionPending
    | Settled _ => Subscribed
    end
  end.

(** Calls of [triggerChange] and of the host's [refreshNode]. *)
Definition is_refresh_event (e : Event) : bool :=
  match e with
  | EvCall MTriggerChange _ => true
  | EvRefreshNode _ _ _ _ => true
  | _ => false
  end.

(** The [refreshNode] calls of a trace, in order. *)
Definition refreshes (tr : list Event) : list (ViewId * NodeId * bool * bool) :=
  omap (fun e => match e with
                 | EvRefreshNode v n r f => Some (v, n, r, f)
                 | _ => None
                 end) tr.

(** The [subscribe()] calls of a trace, in order. *)
Definition subscribes (tr : list Event) : list (NodeId * nat) :=
  omap (fun e => match e with
                 | EvSubscribe n k => Some (n, k)
                 | _ => None
                 end) tr.

(** What may happen between two calls into a node: a job of the queue
    runs, or some promise settles. *)
Inductive env_step (st : State) : State -> Prop :=
| step_microtask : env_step st (run_microtask st)
| step_settle p o : env_step st (settle p o st).

(** The shape the specification asks of a pageable value: [loadMore],
    [hasMore], [limit] and an identity. *)
Definition exposes_pageable_members (o : gmap string JsValue) : Prop :=
  is_Some (o !! "loadMore") ∧ is_Some (o !! "hasMore") ∧
  is_Some (o !! "limit") ∧ is_Some (o !! "id").

(** An object whose only member is a [loadMore] method, and one whose
    only member is a [loadMore] that is not callable. *)
Definition bare_loader : gmap string JsValue := {["loadMore" := VFunction 0]}.
Definition numeric_loader : gmap string JsValue := {["loadMore" := VNumber 1]}.

(** A node's fields with the two gate slots blanked: what is left is what
    the methods of the classes themselves assign. *)
Definition erase_gates (f : NodeFields) : NodeFields :=
  set_gate GTriggerChange None (set_gate GEnsureSubscription None f).

(** Two node stores that differ at most in gate slots. *)
Definition same_modulo_gates (ns ns' : gmap NodeId NodeFields) : Prop :=
  forall n : NodeId, erase_gates (ns' !!! n) = erase_gates (ns !!! n).

(** What a call leaves alone: the views, the count of [subscribe] calls,
    every field of every node but the gate slots, and the trace so far. *)
Definition frame (st st' : State) (tr : list Event) : Prop :=
  views st' = views st ∧ subscribe_calls st' = subscribe_calls st ∧
  same_modulo_gates (nodes st) (nodes st') ∧ trace st' = trace st ++ tr.

(** Two node stores that agree everywhere except, on the node [self], in
    the subscription slot and the gate slots. *)
Definition same_but_subscription (self : NodeId)
    (ns ns' : gmap NodeId NodeFields) : Prop :=
  forall n : NodeId,
    (n ≠ self -> ns' !!! n = ns !!! n) ∧
    erase_gates (set_subscription None (ns' !!! n)) =
    erase_gates (set_subscription None (ns !!! n)).

(** [chain ns n l top]: the ancestors of [n], nearest first, are the
    splatted nodes [l], followed by the node [top], which is not splatted,
    or by nothing ([None]) when the splatted ancestors run up to the
    root. *)
Inductive chain (ns : gmap NodeId NodeFields)
    : ViewNode -> list ViewNode -> option ViewNode -> Prop :=
| chain_root n :
    parent n = None -> chain ns n [] None
| chain_top n t :
    parent n = Some t -> splatted (ns !!! id t) = false -> chain ns n [] (Some t)
| chain_splatted n a l top :
    parent n = Some a -> splatted (ns !!! id a) = true ->
    chain ns a l top -> chain ns n (a :: l) top.

(** The continuation [k] is waiting for the promise [p]: stored on it, or
    queued with its outcome. *)
Definition waiting (p : PromiseId) (k : Cont) (st : State) : Prop :=
  (exists rs, promise st p = Pending rs ∧ k ∈ rs) ∨
  (exists o, promise st p = Settled o ∧ (k, o) ∈ microtasks st).

(** How far the rest [k] of an [unsubscribe] that awaits the promise [p]
    has got: it is still stored on [p], or [p] has settled and [k] is in
    the job queue with the outcome, or [k] has run, and then a
    [Disposable] that [p] fulfilled with was disposed after the first
    [base] events of the trace. *)
Definition unsubscribe_progress (p : PromiseId) (k : Cont) (base : nat)
    (st : State) : Prop :=
  base ≤ length (trace st) ∧
  ((exists rs, promise st p = Pending rs ∧ k ∈ rs) ∨
   (exists o, promise st p = Settled o ∧
      ((k, o) ∈ microtasks st ∨
       forall d, o = Fulfilled (Some d) -> EvDispose d ∈ drop base (trace st)))).

(** ** A concrete tree, host and subtypes

    One host view, visible and without auto-refresh, and four nodes in a
    line: [root], its child [upper] and grandchild [lower], both splatted,
    and [leaf] below them. *)
Definition host : View := {| visible := true; autoRefresh := false; props := ∅ |}.

Definition root : ViewNode := mkViewNode 0 0 None.
Definition upper : ViewNode := mkViewNode 1 0 (Some root).
Definition lower : ViewNode := mkViewNode 2 0 (Some upper).
Definition leaf : ViewNode := mkViewNode 3 0 (Some lower).

Definition splatted_fields : NodeFields :=
  {| splatted := true; gate_triggerChange := None; _disposable := None;
     _subscription := None; _canSubscribe := true; _state := None;
     gate_ensureSubscription := None;
     onStateChanged := false; onParentStateChanged := false |}.

Definition world : State :=
  {| nodes := {[1 := splatted_fields; 2 := splatted_fields]};
     views := {[0 := host]};
     promises := ∅; next_promise := 0; microtasks := [];
     subscribe_calls := 0; trace := [] |}.

(** Subtypes whose [subscribe()] returns a promise that is still pending,
    returns nothing, returns a resource, or throws. *)
Definition subscribe_pending : NodeId -> nat -> SubResult :=
  fun _ _ => SubPromise None.
Definition subscribe_nothing : NodeId -> nat -> SubResult :=
  fun _ _ => SubReturn None.
Definition subscribe_resource : NodeId -> nat -> SubResult :=
  fun _ k => SubReturn (Some (DResource k)).
Definition subscribe_throws : NodeId -> nat -> SubResult :=
  fun _ _ => SubThrow 7.

(** *** A subscription that fails, and one that yields nothing

    The leaf of [world] is eligible and unsubscribed.  [after_subscribe] is
    the state once [ensureSubscription] has returned, the promise of
    [subscribe()] (the promise [1]) still pending; then that promise
    rejects, or fulfils with no [Disposable], and the job queue runs. *)
Definition after_subscribe : State :=
  (ensureSubscription subscribe_pending leaf world).2.
Definition after_rejection : State :=
  drain 2 (settle 1 (Rejected 7) after_subscribe).
Definition after_nothing : State :=
  drain 2 (settle 1 (Fulfilled None) after_subscribe).

(** *** Teardown with a subscription pending, and a view that shows

    [constructed] is [world] after the constructor of the leaf has run;
    [subscribing] has a [subscribe()] promise (the promise [1]) pending;
    [disposed] is the state when [dispose()] returns, [after_teardown] the
    one after the promise has fulfilled with a resource and the jobs have
    run.  [shown] is [world] after the visibility handler of the leaf has
    run for a view that became visible, with a [subscribe()] that returns
    a pending promise (the promise [1]); [shown_subscribed] is the state
    after that promise has fulfilled and the jobs have run. *)
Definition constructed : State := new_SubscribeableViewNode leaf world.
Definition subscribing : State :=
  (ensureSubscription subscribe_pending leaf constructed).2.
Definition disposed : State := dispose leaf subscribing.
Definition after_teardown : State :=
  drain 3 (settle 1 (Fulfilled (Some (DResource 9))) disposed).

(** *** A subscribed node whose view is hidden

    The leaf holds a subscription, the promise [0], which has fulfilled
    with the resource [5]; its view is not visible. *)
Definition subscribed_fields : NodeFields :=
  {| splatted := false; gate_triggerChange := None; _disposable := None;
     _subscription := Some 0; _canSubscribe := true; _state := None;
     gate_ensureSubscription := None;
     onStateChanged := true; onParentStateChanged := true |}.

Definition subscribed_hidden : State :=
  {| nodes := {[3 := subscribed_fields]};
     views := {[0 := {| visible := false; autoRefresh := false; props := ∅ |}]};
     promises := {[0 := Settled (Fulfilled (Some (DResource 5)))]};
     next_promise := 1; microtasks := [];
     subscribe_calls := 1; trace := [] |}.

(** The same node under a visible view. *)
Definition subscribed_visible : State :=
  {| nodes := {[3 := subscribed_fields]};
     views := {[0 := host]};
     promises := {[0 := Settled (Fulfilled (Some (DResource 5)))]};
     next_promise := 1; microtasks := [];
     subscribe_calls := 1; trace := [] |}.

(** *** A view hidden while a subscription is being established

    From [after_subscribe] (the evaluation of the leaf is suspended on the
    pending promise [1]) the host hides the view and the visibility
    handler runs; then the promise fulfils with a resource and the jobs
    run. *)
Definition hidden_meanwhile : State :=
  onVisibilityChanged subscribe_pending leaf false (set_visible 0 false after_subscribe).
Definition completed_hidden : State :=
  drain 3 (settle 1 (Fulfilled (Some (DResource 9))) hidden_meanwhile).

(** *** Where a refresh lands

    The topmost ancestor of a node, and the node [triggerChange] hands to
    the host: the node itself unless it is splatted and has a parent, and
    then its nearest ancestor that is not splatted or, when all of them
    are, the topmost one. *)
Fixpoint root_of (n : ViewNode) : ViewNode :=
  match parent n with
  | Some p => root_of p
  | None => n
  end.

Definition refresh_target (st : State) (self : ViewNode) : ViewNode :=
  if splatted (fields st (id self)) then
    match parent self with
    | Some _ => default (root_of self) (getParent st self)
    | None => self
    end
  else self.

(** The [dispose()] calls of a trace, in order. *)
Definition disposals (tr : list Event) : list Disposable :=
  omap (fun e => match e with
                 | EvDispose d => Some d
                 | _ => None
                 end) tr.



(** The subscribed leaf whose subscription promise has rejected. *)
Definition subscribed_rejected : State :=
  {| nodes := {[3 := subscribed_fields]};
     views := {[0 := {| visible := false; autoRefresh := false; props := ∅ |}]};
     promises := {[0 := Settled (Rejected 7)]};
     next_promise := 1; microtasks := [];
     subscribe_calls := 1; trace := [] |}.

(** * Reading the state after an update *)

Section Frame.
Implicit Types (st : State) (p : PromiseId) (k : Cont) (o : Outcome).

Lemma await_nodes p k st : nodes (await p k st) = nodes st.
Proof. unfold await. by destruct (promise st p). Qed.
Lemma await_views p k st : views (await p k st) = views st.
Proof. unfold await. by destruct (promise st p). Qed.
Lemma await_next_promise p k st : next_promise (await p k st) = next_promise st.
Proof. unfold await. by destruct (promise st p). Qed.
Lemma await_subscribe_calls p k st : subscribe_calls (await p k st) = subscribe_calls st.
Proof. unfold await. by destruct (promise st p). Qed.
Lemma await_trace p k st : trace (await p k st) = trace st.
Proof. unfold await. by destruct (promise st p). Qed.

Lemma settle_nodes p o st : nodes (settle p o st) = nodes st.
Proof. unfold settle. by destruct (promise st p). Qed.
Lemma settle_views p o st : views (settle p o st) = views st.
Proof. unfold settle. by destruct (promise st p). Qed.
Lemma settle_next_promise p o st : next_promise (settle p o st) = next_promise st.
Proof. unfold settle. by destruct (promise st p). Qed.
Lemma settle_subscribe_calls p o st : subscribe_calls (settle p o st) = subscribe_calls st.
Proof. unfold settle. by destruct (promise st p). Qed.
Lemma settle_trace p o st : trace (settle p o st) = trace st.
Proof. unfold settle. by destruct (promise st p). Qed.

(** A promise that is pending takes the reaction; a settled one queues it. *)
Lemma await_pending p k st rs :
  promise st p = Pending rs ->
  await p k st = set_promise p (Pending (rs ++ [k])) st.
Proof. unfold await. by intros ->. Qed.
Lemma await_settled p k st o :
  promise st p = Settled o -> await p k st = enqueue [(k, o)] st.
Proof. unfold await. by intros ->. Qed.
Lemma settle_pending p o st rs :
  promise st p = Pending rs ->
  settle p o st = enqueue (map (fun k => (k, o)) rs) (set_promise p (Settled o) st).
Proof. unfold settle. by intros ->. Qed.
Lemma settle_settled p o st o' :
  promise st p = Settled o' -> settle p o st = st.
Proof. unfold settle. by intros ->. Qed.
End Frame.

(** Projections of the primitive updates compute; those of [await] and
    [settle] are rewritten. *)
Ltac st_simpl :=
  repeat first
    [ progress cbn [nodes views promises next_promise microtasks subscribe_calls
                    trace upd_node set_promise enqueue dequeue emit
                    count_subscribe alloc new_promise fst snd]
    | rewrite await_nodes | rewrite await_views | rewrite await_next_promise
    | rewrite await_subscribe_calls | rewrite await_trace
    | rewrite settle_nodes | rewrite settle_views | rewrite settle_next_promise
    | rewrite settle_subscribe_calls | rewrite settle_trace
    | rewrite lookup_total_insert_eq ].

Ltac st_simpl_in H :=
  repeat first
    [ progress cbn [nodes views promises next_promise microtasks subscribe_calls
                    trace upd_node set_promise enqueue dequeue emit
                    count_subscribe alloc new_promise fst snd] in H
    | rewrite await_nodes in H | rewrite await_views in H
    | rewrite await_next_promise in H
    | rewrite await_subscribe_calls in H | rewrite await_trace in H
    | rewrite settle_nodes in H | rewrite settle_views in H
    | rewrite settle_next_promise in H
    | rewrite settle_subscribe_calls in H | rewrite settle_trace in H
    | rewrite lookup_total_insert_eq in H ].

(** Reading a field of a record that was just assigned. *)
Ltac fld_simpl :=
  cbn [splatted gate_triggerChange _disposable _subscription _canSubscribe
       _state gate_ensureSubscription onStateChanged onParentStateChanged
       set_subscription set_canSubscribe_field set_state set_disposable
       gate set_gate erase_gates].

(** * Frames: what the methods leave alone *)

Lemma ViewNode_parent_ind (P : ViewNode -> Prop) :
  (forall i v, P (mkViewNode i v None)) ->
  (forall i v p, P p -> P (mkViewNode i v (Some p))) ->
  forall n, P n.
Proof.
  intros H0 HS. fix IH 1. intros [i v [p|]].
  - apply HS, IH.
  - apply H0.
Qed.

Lemma erase_gates_set_gate m v f : erase_gates (set_gate m v f) = erase_gates f.
Proof. by destruct m. Qed.

Lemma same_modulo_gates_refl ns : same_modulo_gates ns ns.
Proof. by intros n. Qed.

Lemma same_modulo_gates_trans ns1 ns2 ns3 :
  same_modulo_gates ns1 ns2 -> same_modulo_gates ns2 ns3 -> same_modulo_gates ns1 ns3.
Proof. intros H1 H2 n. by rewrite H2, H1. Qed.

Lemma same_modulo_gates_insert m n v ns ns' :
  same_modulo_gates ns ns' ->
  same_modulo_gates ns (<[n := set_gate m v (ns' !!! n)]> ns').
Proof.
  intros H k. destruct (decide (n = k)) as [->|Hne].
  - rewrite lookup_total_insert_eq, erase_gates_set_gate. apply H.
  - rewrite lookup_total_insert_ne by done. apply H.
Qed.

Lemma triggerChange_unfold self reset force st :
  triggerChange self reset force st =
  gated GTriggerChange (id self)
    (fun st =>
       match splatted (fields st (id self)), parent self with
       | true, Some p => triggerChange p reset force st
       | _, _ => refreshNode (view self) (id self) reset force st
       end)
    (emit (EvCall MTriggerChange (id self)) st).
Proof. by destruct self. Qed.


Lemma refreshNode_frame v n reset force st :
  frame st (refreshNode v n reset force st).2 [EvRefreshNode v n reset force].
Proof. unfold frame, refreshNode. st_simpl. repeat split; try done. Qed.


Lemma eligible_code (st : State) (self : ViewNode) :
  negb (_canSubscribe (fields st (id self)))
  || negb (visible (the_view st (view self)))
  || (viewSupportsAutoRefresh (the_view st (view self))
      && negb (autoRefresh (the_view st (view self))))
  = negb (eligible st self).
Proof.
  unfold eligible.
  by destruct (_canSubscribe _), (visible _), (viewSupportsAutoRefresh _), (autoRefresh _).
Qed.

Lemma unsubscribe_trace self st :
  trace (unsubscribe self st).2 =
  trace st ++ EvCall MUnsubscribe (id self) ::
    (match _subscription (fields st (id self)) with
     | Some _ => []
     | None => [EvReturn MUnsubscribe (id self)]
     end).
Proof.
  unfold unsubscribe. st_simpl. destruct (_subscription _); st_simpl.
  - done.
  - by rewrite <- app_assoc.
Qed.

Lemma ensureSubscription_trace subscribe self st :
  exists tr,
    trace (ensureSubscription subscribe self st).2 =
      trace st ++ EvCall MEnsureSubscription (id self) :: tr ∧
    Forall (fun e => is_refresh_event e = false) tr.
Proof.
  unfold ensureSubscription, gated. st_simpl. destruct (gate _ _).
  - exists []. by st_simpl.
  - unfold ensureSubscription_body. st_simpl.
    destruct (_ || _ || _).
    + destruct (unsubscribe _ _) as [u st1] eqn:Hu.
      apply (f_equal snd) in Hu. cbn [snd] in Hu. subst st1.
      st_simpl. rewrite unsubscribe_trace. st_simpl.
      eexists. split; [by rewrite <- app_assoc|].
      destruct (_subscription _); repeat constructor.
    + destruct (_subscription _); st_simpl.
      * eexists. split; [by rewrite <- app_assoc|]. repeat constructor.
      * destruct (subscribe _ _); st_simpl;
          (eexists; split; [by rewrite <- ?app_assoc|]; repeat constructor).
Qed.

Lemma unsubscribe_nodes self st :
  nodes (unsubscribe self st).2 =
  match _subscription (fields st (id self)) with
  | Some _ => <[id self := set_subscription None (fields st (id self))]> (nodes st)
  | None => nodes st
  end.
Proof. unfold unsubscribe. st_simpl. destruct (_subscription _); by st_simpl. Qed.

Lemma unsubscribe_views self st : views (unsubscribe self st).2 = views st.
Proof. unfold unsubscribe. st_simpl. destruct (_subscription _); by st_simpl. Qed.

Lemma unsubscribe_subscribe_calls self st :
  subscribe_calls (unsubscribe self st).2 = subscribe_calls st.
Proof. unfold unsubscribe. st_simpl. destruct (_subscription _); by st_simpl. Qed.

Lemma unsubscribe_slot self st :
  _subscription (fields (unsubscribe self st).2 (id self)) = None.
Proof.
  rewrite unsubscribe_nodes.
  destruct (_subscription (nodes st !!! id self)) eqn:H; [by st_simpl|done].
Qed.

Lemma same_but_subscription_refl self ns : same_but_subscription self ns ns.
Proof. by intros n. Qed.

Lemma same_but_subscription_insert self ns ns' f :
  same_but_subscription self ns ns' ->
  erase_gates (set_subscription None f) =
    erase_gates (set_subscription None (ns' !!! self)) ->
  same_but_subscription self ns (<[self := f]> ns').
Proof.
  intros H Hf n. destruct (decide (self = n)) as [->|Hne].
  - rewrite lookup_total_insert_eq. split; [done|]. rewrite Hf. apply H.
  - rewrite lookup_total_insert_ne by done. apply H.
Qed.

Lemma ensureSubscription_nodes subscribe self st :
  let st' := (ensureSubscription subscribe self st).2 in
  views st' = views st ∧ same_but_subscription (id self) (nodes st) (nodes st').
Proof.
  cbn zeta. unfold ensureSubscription, gated. st_simpl. destruct (gate _ _).
  - st_simpl. split; [done|apply same_but_subscription_refl].
  - unfold ensureSubscription_body. st_simpl.
    destruct (_ || _ || _).
    + destruct (unsubscribe _ _) as [u st1] eqn:Hu.
      apply (f_equal snd) in Hu. cbn [snd] in Hu. subst st1.
      st_simpl. rewrite unsubscribe_views, unsubscribe_nodes. st_simpl.
      split; [done|]. apply same_but_subscription_insert; [|by destruct (nodes _ !!! _)].
      destruct (_subscription _); [|apply same_but_subscription_refl].
      apply same_but_subscription_insert; [apply same_but_subscription_refl|done].
    + destruct (_subscription _); st_simpl.
      * split; [done|]. apply same_but_subscription_insert;
          [apply same_but_subscription_refl|by destruct (nodes _ !!! _)].
      * destruct (subscribe _ _); st_simpl; (split; [done|]);
          repeat (apply same_but_subscription_insert;
                  [|by st_simpl; destruct (nodes _ !!! _)]);
          apply same_but_subscription_refl.
Qed.

Lemma ensureSubscription_joined subscribe self st g :
  gate GEnsureSubscription (fields st (id self)) = Some g ->
  ensureSubscription subscribe self st =
  (g, emit (EvCall MEnsureSubscription (id self)) st).
Proof. intros H. unfold ensureSubscription, gated. st_simpl. by rewrite H. Qed.

Lemma ensureSubscription_slot subscribe self st :
  gate GEnsureSubscription (fields st (id self)) = None ->
  _subscription (fields (ensureSubscription subscribe self st).2 (id self)) =
  if eligible st self then
    match _subscription (fields st (id self)) with
    | Some p => Some p
    | None =>
      match subscribe (id self) (subscribe_calls st) with
      | SubThrow _ => None
      | _ => Some (S (next_promise st))
      end
    end
  else None.
Proof.
  intros Hg. unfold ensureSubscription, gated. st_simpl. rewrite Hg.
  unfold ensureSubscription_body. st_simpl. rewrite eligible_code.
  destruct (eligible st self); cbn [negb].
  - destruct (_subscription (nodes st !!! id self)) eqn:Hs; st_simpl.
    + fld_simpl. by rewrite Hs.
    + destruct (subscribe _ _); st_simpl; fld_simpl; [by rewrite Hs|done..].
  - destruct (unsubscribe _ _) as [u st1] eqn:Hu.
    apply (f_equal snd) in Hu. cbn [snd] in Hu. subst st1.
    st_simpl. generalize (unsubscribe_slot self (alloc (Pending [])
      (emit (EvCall MEnsureSubscription (id self)) st))).
    fld_simpl. by intros ->.
Qed.

(** * Between two calls: jobs and settlements *)

Lemma frame_refl st : frame st st [].
Proof. unfold frame. by rewrite app_nil_r. Qed.

Lemma frame_trans st1 st2 st3 tr1 tr2 :
  frame st1 st2 tr1 -> frame st2 st3 tr2 -> frame st1 st3 (tr1 ++ tr2).
Proof.
  intros (Hv1 & Hc1 & Hn1 & Ht1) (Hv2 & Hc2 & Hn2 & Ht2). repeat split.
  - congruence.
  - congruence.
  - by eapply same_modulo_gates_trans.
  - by rewrite Ht2, Ht1, app_assoc.
Qed.

Lemma settle_frame p o st : frame st (settle p o st) [].
Proof. unfold frame. st_simpl. by rewrite app_nil_r. Qed.

Lemma resume_frame k o st : exists tr, frame st (resume k o st) tr.
Proof.
  destruct k as [self ret|self ret|self ret|m self g]; cbn [resume].
  - destruct o as [[d|]|e]; eexists; unfold frame; st_simpl;
      by rewrite <- ?app_assoc.
  - destruct o as [v|e]; eexists; unfold frame; st_simpl; done.
  - destruct o as [v|e]; eexists; unfold frame; st_simpl; done.
  - exists []. unfold frame. st_simpl. rewrite app_nil_r. repeat split; try done.
    apply same_modulo_gates_insert, same_modulo_gates_refl.
Qed.

Lemma run_microtask_frame st : exists tr, frame st (run_microtask st) tr.
Proof.
  unfold run_microtask. destruct (microtasks st) as [|[k o] js].
  - exists []. apply frame_refl.
  - destruct (resume_frame k o (dequeue st)) as (tr & Hv & Hc & Hn & Ht).
    exists tr. by repeat split.
Qed.

Lemma env_step_frame st st' : env_step st st' -> exists tr, frame st st' tr.
Proof. destruct 1; [apply run_microtask_frame|eexists; apply settle_frame]. Qed.

Lemma env_steps_frame st st' : rtc env_step st st' -> exists tr, frame st st' tr.
Proof.
  induction 1 as [st|st1 st2 st3 H12 _ (tr2 & IH)].
  - exists []. apply frame_refl.
  - destruct (env_step_frame _ _ H12) as (tr1 & H1).
    eexists. by eapply frame_trans.
Qed.

Lemma frame_subscription st st' tr n :
  frame st st' tr -> _subscription (fields st' n) = _subscription (fields st n).
Proof. intros (_ & _ & Hn & _). specialize (Hn n). by apply (f_equal _subscription) in Hn. Qed.

Lemma frame_eligible st st' tr self :
  frame st st' tr -> eligible st' self = eligible st self.
Proof.
  intros (Hv & _ & Hn & _). unfold eligible. rewrite Hv.
  specialize (Hn (id self)). apply (f_equal _canSubscribe) in Hn.
  change (_canSubscribe (nodes st' !!! id self) =
          _canSubscribe (nodes st !!! id self)) in Hn.
  by rewrite Hn.
Qed.

(** * A suspended [unsubscribe] ends in the disposal *)

Section Progress.
Variables (p : PromiseId) (self : NodeId) (u : PromiseId) (base : nat).
Local Abbreviation k := (KUnsubscribe self u).

Lemma elem_of_drop_app (e : Event) (tr tr' : list Event) :
  e ∈ drop base tr -> e ∈ drop base (tr ++ tr').
Proof. rewrite drop_app, elem_of_app. by left. Qed.

Lemma elem_of_drop_new (e : Event) (tr tr' : list Event) :
  base ≤ length tr -> e ∈ tr' -> e ∈ drop base (tr ++ tr').
Proof.
  intros Hb He. rewrite drop_app, elem_of_app. right.
  by replace (base - length tr) with 0 by lia.
Qed.

Lemma progress_settle p' o' st :
  unsubscribe_progress p k base st ->
  unsubscribe_progress p k base (settle p' o' st).
Proof.
  intros [Hb H]. split; [by st_simpl|].
  unfold settle. destruct (promise st p') as [rs'|o''] eqn:Hp'; [|done].
  st_simpl. destruct H as [(rs & Hp & Hk)|(o & Hp & H)].
  - destruct (decide (p' = p)) as [->|Hne].
    + right. exists o'. rewrite lookup_total_insert_eq. split; [done|]. left.
      rewrite elem_of_app. right. rewrite Hp in Hp'. simplify_eq.
      apply list_elem_of_fmap. by exists k.
    + left. exists rs. by rewrite lookup_total_insert_ne.
  - right. exists o. destruct (decide (p' = p)) as [->|Hne]; [congruence|].
    rewrite lookup_total_insert_ne by done. split; [done|].
    destruct H as [H|H]; [left|by right]. rewrite elem_of_app. by left.
Qed.

Lemma progress_extend st st' tr :
  promises st' = promises st -> microtasks st' = microtasks st ->
  trace st' = trace st ++ tr ->
  unsubscribe_progress p k base st -> unsubscribe_progress p k base st'.
Proof.
  intros Hp Hm Ht [Hb H]. split.
  - rewrite Ht, length_app. lia.
  - rewrite Hp, Hm, Ht. destruct H as [H|(o & Ho & [H|H])]; [by left|right..];
      exists o; (split; [done|]); [by left|right].
    intros d Hd. by apply elem_of_drop_app, H.
Qed.

Lemma progress_await p' k' st :
  unsubscribe_progress p k base st ->
  unsubscribe_progress p k base (await p' k' st).
Proof.
  intros [Hb H]. split; [by st_simpl|].
  unfold await. destruct (promise st p') as [rs'|o''] eqn:Hp'; st_simpl.
  - destruct (decide (p' = p)) as [->|Hne].
    + rewrite lookup_total_insert_eq. left. eexists. split; [done|].
      destruct H as [(rs & Hp & Hk)|(o & Hp & _)]; [|congruence].
      rewrite Hp in Hp'. simplify_eq. rewrite elem_of_app. by left.
    + by rewrite lookup_total_insert_ne.
  - destruct H as [H|(o & Ho & [H|H])]; [by left|right..];
      exists o; (split; [done|]); [left|by right].
    rewrite elem_of_app. by left.
Qed.

Lemma progress_run_microtask st :
  unsubscribe_progress p k base st ->
  unsubscribe_progress p k base (run_microtask st).
Proof.
  intros HJ. unfold run_microtask.
  destruct (microtasks st) as [|[k' o'] js] eqn:Hq; [done|].
  (* the state once the head of the queue is taken *)
  assert (Hpop : k' = k ∧ promise st p = Settled o' ∨
                 unsubscribe_progress p k base (dequeue st)).
  { destruct HJ as [Hb [H|(o & Ho & [H|H])]].
    - right. split; [by st_simpl|]. by left.
    - rewrite Hq in H. apply elem_of_cons in H as [H|H].
      + simplify_eq. by left.
      + right. split; [by st_simpl|]. right. exists o. st_simpl.
        rewrite Hq. split; [done|]. by left.
    - right. split; [by st_simpl|]. right. exists o. st_simpl.
      split; [done|]. by right. }
  destruct HJ as [Hb _].
  destruct Hpop as [[-> Hp]|HJ].
  - cbn [resume].
    destruct o' as [[d|]|e]; apply progress_settle;
      (split; [st_simpl; rewrite ?length_app; lia|]); right; eexists;
      (split; [by st_simpl|]); right; intros d' Hd'; simplify_eq.
    st_simpl. apply elem_of_drop_app, elem_of_drop_new; [done|].
    by apply list_elem_of_singleton.
  - destruct k' as [self' ret|self' ret|self' ret|m self' g]; cbn [resume].
    + destruct o' as [[d|]|e]; apply progress_settle;
        eapply progress_extend; try exact HJ; st_simpl; try done.
      * by rewrite <- app_assoc.
    + destruct o' as [v|e]; apply progress_settle;
        eapply progress_extend; try exact HJ; st_simpl; done.
    + destruct o' as [v|e]; apply progress_settle;
        eapply progress_extend; try exact HJ; st_simpl; done.
    + apply progress_settle.
      eapply (progress_extend _ _ []); try exact HJ; st_simpl; try done.
      by rewrite app_nil_r.
Qed.

Lemma progress_env_steps st st' :
  rtc env_step st st' ->
  unsubscribe_progress p k base st -> unsubscribe_progress p k base st'.
Proof.
  induction 1 as [|st1 st2 st3 H12 _ IH]; [done|]. intros HJ. apply IH.
  destruct H12; [by apply progress_run_microtask|by apply progress_settle].
Qed.

(** Once the awaited promise has fulfilled with a [Disposable] and the
    job queue is empty, the [Disposable] has been disposed. *)
Lemma progress_disposed st d :
  unsubscribe_progress p k base st ->
  microtasks st = [] ->
  promise st p = Settled (Fulfilled (Some d)) ->
  EvDispose d ∈ drop base (trace st).
Proof.
  intros [_ [(rs & Hp & _)|(o & Hp & [H|H])]] Hq Hd.
  - congruence.
  - rewrite Hq in H. by apply not_elem_of_nil in H.
  - apply H. congruence.
Qed.
End Progress.

(** * Capability probes *)

Lemma typeof_function (v : option JsValue) :
  String.eqb (typeof v) "function" = true ↔ ∃ f, v = Some (VFunction f).
Proof.
  destruct v as [[]|]; simpl; split; intros H;
    try discriminate; eauto; destruct H; discriminate.
Qed.

Lemma Functions_is_lookup (o : gmap string JsValue) (prop : string) :
  Functions.is_ o prop = true ↔ is_Some (o !! prop).
Proof.
  unfold Functions.is_. destruct (o !! prop); split; intros H;
    try discriminate; eauto. destruct H; discriminate.
Qed.

(** C9, counterexample: the pageable probe accepts an object that has a
    [loadMore] method but neither [hasMore], nor [limit], nor an identity;
    it also accepts one whose [loadMore] is a number. *)
Lemma pageable_probe_accepts_bare_loader :
  PageableViewNode.is_ bare_loader = true ∧
  bare_loader !! "hasMore" = None ∧
  bare_loader !! "limit" = None ∧
  bare_loader !! "id" = None ∧
  ¬ exposes_pageable_members bare_loader ∧
  PageableViewNode.is_ numeric_loader = true ∧
  typeof (numeric_loader !! "loadMore") = "number".
Proof.
  split; [reflexivity|]. split; [reflexivity|]. split; [reflexivity|].
  split; [reflexivity|]. split; [|split; reflexivity].
  intros (_ & [x Hx] & _). vm_compute in Hx. discriminate.
Qed.

(** C9, amended: every probe reads exactly one member and calls nothing.
    The clearing, conditional-dismissal and node-dismissal probes hold iff
    that member is a function; the pageable and auto-refresh probes hold
    iff the member ([loadMore], [onDidChangeAutoRefresh]) is defined at
    all, whatever its type, and the pageable probe does not look at any
    other member. *)
Theorem capability_probes_read_one_member (node : gmap string JsValue) (view : View) :
  (nodeSupportsClearing node = true ↔ ∃ f, node !! "clear" = Some (VFunction f)) ∧
  (nodeSupportsConditionalDismissal node = true ↔
     ∃ f, node !! "canDismiss" = Some (VFunction f)) ∧
  (PageableViewNode.is_ node = true ↔ is_Some (node !! "loadMore")) ∧
  (viewSupportsAutoRefresh view = true ↔
     is_Some (props view !! "onDidChangeAutoRefresh")) ∧
  (viewSupportsNodeDismissal view = true ↔
     ∃ f, props view !! "dismissNode" = Some (VFunction f)) ∧
  (∀ k x, k ≠ "loadMore" →
     PageableViewNode.is_ (<[k := x]> node) = PageableViewNode.is_ node) ∧
  (∀ k, k ≠ "loadMore" →
     PageableViewNode.is_ (delete k node) = PageableViewNode.is_ node).
Proof.
  repeat split; try (apply typeof_function); try (apply Functions_is_lookup).
  - intros k x Hk. unfold PageableViewNode.is_, Functions.is_.
    by rewrite lookup_insert_ne.
  - intros k Hk. unfold PageableViewNode.is_, Functions.is_.
    by rewrite lookup_delete_ne.
Qed.

(** * The node-state-change router *)

(** C7: a node-state-changed event whose element is the node itself
    records the new collapsible state (and nothing else on the node) and
    calls [onStateChanged] when the subtype defines it; otherwise an event
    whose element is the stored [parent] link, splatted or not, calls
    [onParentStateChanged] when defined and records nothing; any other
    event changes nothing at all.  A missing hook means no call, and the
    handler goes on normally. *)
Theorem onNodeStateChanged_routing (self : ViewNode) (e_element : NodeId)
    (e_state : TreeItemCollapsibleState) (st : State) :
  let st' := onNodeStateChanged self e_element e_state st in
  (e_element = id self ->
     nodes st' = <[id self := set_state (Some e_state) (fields st (id self))]> (nodes st) ∧
     _state (fields st' (id self)) = Some e_state ∧
     trace st' = trace st ++
       (if onStateChanged (fields st (id self))
        then [EvOnStateChanged (id self) e_state] else [])) ∧
  (e_element ≠ id self -> id <$> parent self = Some e_element ->
     nodes st' = nodes st ∧
     trace st' = trace st ++
       (if onParentStateChanged (fields st (id self))
        then [EvOnParentStateChanged (id self) e_state] else [])) ∧
  (e_element ≠ id self -> id <$> parent self ≠ Some e_element -> st' = st).
Proof.
  cbn zeta. unfold onNodeStateChanged. split; [|split].
  - intros ->. rewrite decide_True by done. st_simpl.
    destruct (onStateChanged (nodes st !!! id self)) eqn:Hh; fld_simpl;
      rewrite Hh; st_simpl; fld_simpl; [done|by rewrite app_nil_r].
  - intros Hne Hp. rewrite decide_False by done. rewrite decide_True by done.
    destruct (onParentStateChanged _); st_simpl; [done|by rewrite app_nil_r].
  - intros Hne Hp. rewrite decide_False by done. by rewrite decide_False.
Qed.

(** * The [canSubscribe] setter *)

Lemma canSubscribe_same_but_subscription self ns ns' :
  same_but_subscription self ns ns' ->
  forall n, _canSubscribe (ns' !!! n) = _canSubscribe (ns !!! n).
Proof. intros H n. destruct (H n) as [_ Hn]. by apply (f_equal _canSubscribe) in Hn. Qed.



(** * Delegation through splatted ancestors *)

Lemma getParent_unfold st self :
  getParent st self =
  match parent self with
  | Some p => if splatted (fields st (id p)) then getParent st p else Some p
  | None => None
  end.
Proof. by destruct self. Qed.

Lemma getParent_chain st n l top :
  chain (nodes st) n l top -> getParent st n = top.
Proof.
  induction 1 as [n Hp|n t Hp Hs|n a l top Hp Hs _ IH];
    rewrite getParent_unfold, Hp; [done|by rewrite Hs|by rewrite Hs].
Qed.

Lemma gated_idle m n body st :
  gate m (fields st n) = None ->
  gated m n body st =
  (next_promise (body st).2,
   await (body st).1 (KGate m n (next_promise (body st).2))
     (upd_node n (set_gate m (Some (next_promise (body st).2)))
        (alloc (Pending []) (body st).2))).
Proof. intros H. unfold gated. rewrite H. by destruct (body st). Qed.

Lemma refreshes_snoc tr e :
  refreshes (tr ++ [e]) =
  refreshes tr ++ match e with
                  | EvRefreshNode v n r f => [(v, n, r, f)]
                  | _ => []
                  end.
Proof. unfold refreshes. rewrite omap_app. f_equal. by destruct e. Qed.

Lemma triggerChange_not_splatted self reset force st :
  gate GTriggerChange (fields st (id self)) = None ->
  splatted (fields st (id self)) = false ->
  refreshes (trace (triggerChange self reset force st).2) =
  refreshes (trace st) ++ [(view self, id self, reset, force)].
Proof.
  intros Hg Hs. rewrite triggerChange_unfold, gated_idle by (by st_simpl).
  st_simpl. rewrite Hs. unfold refreshNode. st_simpl.
  rewrite !refreshes_snoc. by rewrite app_nil_r.
Qed.

Lemma triggerChange_delegates t reset force l : forall s st,
  chain (nodes st) s l (Some t) ->
  splatted (fields st (id s)) = true ->
  (forall x, x ∈ s :: l ++ [t] -> gate GTriggerChange (fields st (id x)) = None) ->
  refreshes (trace (triggerChange s reset force st).2) =
  refreshes (trace st) ++ [(view t, id t, reset, force)].
Proof.
  induction l as [|a l IH]; intros s st Hch Hs Hidle;
    rewrite triggerChange_unfold, gated_idle
      by (st_simpl; apply Hidle, elem_of_cons; by left);
    st_simpl; rewrite Hs;
    inversion Hch as [|n' t' Hp Ht|n' a' l' top' Hp Ha Hch']; subst;
    rewrite Hp.
  - rewrite triggerChange_not_splatted; st_simpl.
    + by rewrite refreshes_snoc, app_nil_r.
    + apply Hidle. rewrite !elem_of_cons. by right; left.
    + done.
  - rewrite IH; st_simpl.
    + by rewrite refreshes_snoc, app_nil_r.
    + done.
    + done.
    + intros x Hx. apply Hidle, elem_of_cons. by right.
Qed.

Lemma chain_suffix ns n l1 s l2 top :
  chain ns n (l1 ++ s :: l2) top ->
  chain ns s l2 top ∧ splatted (ns !!! id s) = true.
Proof.
  revert n. induction l1 as [|a l1 IH]; intros n Hch; cbn in Hch;
    inversion Hch; subst; eauto.
Qed.

Lemma chain_has_parent ns s l top : chain ns s l (Some top) -> is_Some (parent s).
Proof. inversion 1; eauto. Qed.

Lemma chain_top_not_splatted ns s l t :
  chain ns s l (Some t) -> splatted (ns !!! id t) = false.
Proof.
  intros H. remember (Some t) as top eqn:Ht.
  induction H; simplify_eq; eauto.
Qed.

Lemma gated_joined m n body st g :
  gate m (fields st n) = Some g -> gated m n body st = (g, st).
Proof. intros H. unfold gated. by rewrite H. Qed.

(** Whatever is in flight, a [triggerChange] on a splatted node of a chain
    joins an earlier call, and then adds no refresh, or refreshes the node
    that ends the chain. *)
Lemma triggerChange_at_most t reset force l : forall s st,
  chain (nodes st) s l (Some t) ->
  splatted (fields st (id s)) = true ->
  refreshes (trace (triggerChange s reset force st).2) = refreshes (trace st) ∨
  refreshes (trace (triggerChange s reset force st).2) =
    refreshes (trace st) ++ [(view t, id t, reset, force)].
Proof.
  induction l as [|a l IH]; intros s st Hch Hs;
    rewrite triggerChange_unfold;
    (destruct (gate GTriggerChange (fields st (id s))) as [g|] eqn:Hg;
     [rewrite (gated_joined _ _ _ _ g) by (by st_simpl); st_simpl;
      left; by rewrite refreshes_snoc, app_nil_r|]);
    rewrite gated_idle by (by st_simpl); st_simpl; rewrite Hs;
    inversion Hch as [|n' t' Hp Ht|n' a' l' top' Hp Ha Hch']; subst;
    rewrite Hp.
  - set (st0 := emit _ st).
    destruct (gate GTriggerChange (fields st0 (id t))) as [g|] eqn:Hgt.
    + rewrite triggerChange_unfold, (gated_joined _ _ _ _ g) by (by st_simpl).
      subst st0. st_simpl. left. by rewrite !refreshes_snoc, !app_nil_r.
    + rewrite triggerChange_not_splatted by done. subst st0. st_simpl.
      right. by rewrite refreshes_snoc, app_nil_r.
  - destruct (IH a (emit (EvCall MTriggerChange (id s)) st)) as [H|H];
      [done..| |]; rewrite H; st_simpl; rewrite refreshes_snoc, app_nil_r; auto.
Qed.

(** C1: below a chain of splatted ancestors [l] that ends in the node
    [top], [getParent] answers [top] ([None] when the splatted ancestors
    run up to the root).  When [top] is a node [t], every node [s] of the
    chain has a parent and is not [t]; a [triggerChange reset force] on
    [s] never refreshes [s] itself or any node but [t]: it adds no
    [refreshNode] call at all when it joins a call in flight, and
    otherwise one, on [t]; and when no [triggerChange] is in flight from
    [s] upwards it adds exactly one [refreshNode] call: the one on [t],
    with the same [reset] and [force]. *)
Theorem splatted_chain_delegation (st : State) (n : ViewNode)
    (l : list ViewNode) (top : option ViewNode) :
  chain (nodes st) n l top ->
  getParent st n = top ∧
  forall t l1 s l2 reset force,
    top = Some t -> l = l1 ++ s :: l2 ->
    is_Some (parent s) ∧ id s ≠ id t ∧
    (refreshes (trace (triggerChange s reset force st).2) = refreshes (trace st) ∨
     refreshes (trace (triggerChange s reset force st).2) =
       refreshes (trace st) ++ [(view t, id t, reset, force)]) ∧
    ((forall x, x ∈ s :: l2 ++ [t] -> gate GTriggerChange (fields st (id x)) = None) ->
     refreshes (trace (triggerChange s reset force st).2) =
       refreshes (trace st) ++ [(view t, id t, reset, force)]).
Proof.
  intros Hch. split; [by eapply getParent_chain|].
  intros t l1 s l2 reset force -> ->.
  destruct (chain_suffix _ _ _ _ _ _ Hch) as [Hs Hsp].
  split; [by eapply chain_has_parent|]. split; [|split].
  - intros Heq. apply chain_top_not_splatted in Hs. congruence.
  - by apply triggerChange_at_most with l2.
  - intros Hidle. by apply triggerChange_delegates with l2.
Qed.

(** * The subscription lifecycle *)

Lemma progress_alloc p k base ps st :
  p ≠ next_promise st ->
  unsubscribe_progress p k base st -> unsubscribe_progress p k base (alloc ps st).
Proof.
  intros Hne [Hb H]. split; [by st_simpl|]. st_simpl.
  by rewrite lookup_total_insert_ne.
Qed.

Lemma progress_upd_node p k base n f st :
  unsubscribe_progress p k base st -> unsubscribe_progress p k base (upd_node n f st).
Proof. intros [Hb H]. split; by st_simpl. Qed.

Lemma unsubscribe_unfold self st :
  unsubscribe self st =
  (next_promise st,
   match _subscription (fields st (id self)) with
   | Some p =>
     await p (KUnsubscribe (id self) (next_promise st))
       (upd_node (id self) (set_subscription None)
          (alloc (Pending []) (emit (EvCall MUnsubscribe (id self)) st)))
   | None =>
     settle (next_promise st) (Fulfilled None)
       (emit (EvReturn MUnsubscribe (id self))
          (alloc (Pending []) (emit (EvCall MUnsubscribe (id self)) st)))
   end).
Proof. unfold unsubscribe. st_simpl. by destruct (_subscription _). Qed.

(** An [unsubscribe] that finds a promise in the slot leaves its own rest
    waiting on that promise. *)
Lemma unsubscribe_progress_init self st p :
  _subscription (fields st (id self)) = Some p ->
  unsubscribe_progress p (KUnsubscribe (id self) (unsubscribe self st).1)
    (length (trace (unsubscribe self st).2)) (unsubscribe self st).2.
Proof.
  intros Hs. rewrite unsubscribe_unfold, Hs. cbn [fst snd]. split; [done|].
  set (st0 := upd_node _ _ _).
  destruct (promise st0 p) as [rs|o] eqn:Hp.
  - rewrite (await_pending _ _ _ _ Hp). st_simpl.
    left. eexists. split; [done|]. rewrite elem_of_app. right.
    by apply list_elem_of_singleton.
  - rewrite (await_settled _ _ _ _ Hp). st_simpl.
    right. exists o. split; [done|]. left.
    rewrite elem_of_app. right. by apply list_elem_of_singleton.
Qed.

Lemma ensureSubscription_not_eligible subscribe self st :
  gate GEnsureSubscription (fields st (id self)) = None ->
  eligible st self = false ->
  let st0 := alloc (Pending []) (emit (EvCall MEnsureSubscription (id self)) st) in
  let ur := unsubscribe self st0 in
  ensureSubscription subscribe self st =
  (S (S (next_promise st)),
   await (next_promise st)
     (KGate GEnsureSubscription (id self) (S (S (next_promise st))))
     (upd_node (id self) (set_gate GEnsureSubscription (Some (S (S (next_promise st)))))
        (alloc (Pending [])
           (await ur.1 (KEnsureUnsubscribed (id self) (next_promise st)) ur.2)))).
Proof.
  intros Hg He. cbn zeta. unfold ensureSubscription. rewrite gated_idle by (by st_simpl).
  unfold ensureSubscription_body. st_simpl. rewrite eligible_code, He. cbn [negb].
  rewrite unsubscribe_unfold. st_simpl. by destruct (_subscription _); st_simpl.
Qed.

Lemma ensureSubscription_eligible subscribe self st :
  eligible (ensureSubscription subscribe self st).2 self = eligible st self.
Proof.
  destruct (ensureSubscription_nodes subscribe self st) as [Hv Hn].
  cbn zeta in *. unfold eligible. rewrite Hv.
  by rewrite (canSubscribe_same_but_subscription _ _ _ Hn).
Qed.

(** C2, counterexample: the view is hidden, and its visibility handler
    runs, while an evaluation of [ensureSubscription] is suspended on the
    pending promise of [subscribe()]; the handler's call joins that
    evaluation and evaluates nothing.  When the evaluation has completed
    (its return is in the trace, the gate is free, no job is left) the
    node holds the subscription although it is not eligible, and the
    resource was not disposed. *)
Lemma completed_run_ignores_new_flags :
  EvReturn MEnsureSubscription 3 ∈ trace completed_hidden ∧
  microtasks completed_hidden = [] ∧
  gate GEnsureSubscription (fields completed_hidden (id leaf)) = None ∧
  eligible completed_hidden leaf = false ∧
  _subscription (fields completed_hidden (id leaf)) = Some 1 ∧
  promise completed_hidden 1 = Settled (Fulfilled (Some (DResource 9))) ∧
  EvDispose (DResource 9) ∉ trace completed_hidden.
Proof.
  split; [|split; [|split; [|split; [|split; [|split]]]]];
    try (vm_compute; reflexivity).
  - apply list_elem_of_In. vm_compute. tauto.
  - intros H. apply list_elem_of_In in H. vm_compute in H.
    repeat (destruct H as [H|H]; [discriminate|]). exact H.
Qed.

(** C2, amended: take a run of [ensureSubscription] (the gate lets the call
    through) whose [subscribe()], if it comes to be called, does not throw.
    From the moment the call returns and for as long as nothing happens
    but jobs that run and promises that settle (no flag changes, no other
    call into the node), so in particular when the run completes, the
    flags that make up the eligibility are those the run read, and the
    node holds a promise in its subscription slot if and only if it is
    eligible: [canSubscribe], the view visible, and auto-refresh
    unsupported or switched on.  When the node is not eligible the slot is
    empty; a promise [p] that was in it is awaited by the suspended
    [unsubscribe], so that once [p] has fulfilled with a [Disposable] and
    the job queue has run dry that [Disposable] has been disposed; and
    with an empty slot the run calls nothing but [unsubscribe], which
    returns at once, and touches no field but the gate slot. *)
Theorem ensureSubscription_gating (subscribe : NodeId -> nat -> SubResult)
    (self : ViewNode) (st : State) :
  gate GEnsureSubscription (fields st (id self)) = None ->
  (eligible st self = true -> _subscription (fields st (id self)) = None ->
   forall e, subscribe (id self) (subscribe_calls st) ≠ SubThrow e) ->
  let st1 := (ensureSubscription subscribe self st).2 in
  forall st2, rtc env_step st1 st2 ->
    eligible st2 self = eligible st self ∧
    (is_Some (_subscription (fields st2 (id self))) ↔ eligible st self = true) ∧
    (eligible st self = false ->
       _subscription (fields st2 (id self)) = None ∧
       match _subscription (fields st (id self)) with
       | None =>
         trace st1 = trace st ++ [EvCall MEnsureSubscription (id self);
                                  EvCall MUnsubscribe (id self);
                                  EvReturn MUnsubscribe (id self)] ∧
         same_modulo_gates (nodes st) (nodes st1)
       | Some p =>
         p < next_promise st ->
         forall d, microtasks st2 = [] ->
                   promise st2 p = Settled (Fulfilled (Some d)) ->
                   EvDispose d ∈ drop (length (trace st1)) (trace st2)
       end).
Proof.
  intros Hg Hthrow st1 st2 Hsteps.
  destruct (env_steps_frame _ _ Hsteps) as (tr & Hfr).
  assert (Hslot : _subscription (fields st2 (id self)) =
                  _subscription (fields st1 (id self)))
    by (by eapply frame_subscription).
  assert (Hslot1 := ensureSubscription_slot subscribe self st Hg).
  fold st1 in Hslot1. split; [|split].
  - rewrite (frame_eligible _ _ _ _ Hfr). apply ensureSubscription_eligible.
  - rewrite Hslot, Hslot1. destruct (eligible st self) eqn:He.
    + split; [done|intros _].
      destruct (_subscription (nodes st !!! id self)) eqn:Hs; [by eexists|].
      specialize (Hthrow eq_refl eq_refl).
      destruct (subscribe _ _); [by destruct (Hthrow e)|by eexists..].
    + split; [by intros [? ?]|done].
  - intros He. rewrite He in Hslot1. split; [congruence|].
    subst st1. revert Hsteps. clear Hfr Hslot Hslot1 tr.
    rewrite ensureSubscription_not_eligible by done. cbn [snd]. cbn zeta.
    destruct (_subscription (nodes st !!! id self)) as [p|] eqn:Hs.
    + intros Hsteps Hp d Hq Hd.
      eapply progress_disposed; [|done..].
      eapply progress_env_steps; [exact Hsteps|].
      st_simpl. apply progress_await, progress_upd_node, progress_alloc.
      { st_simpl. rewrite unsubscribe_unfold. cbn [snd]. st_simpl.
        destruct (_subscription _); st_simpl; lia. }
      apply progress_await.
      set (st0 := alloc _ _).
      assert (Hs0 : _subscription (fields st0 (id self)) = Some p) by done.
      generalize (unsubscribe_progress_init self st0 p Hs0).
      by rewrite unsubscribe_unfold.
    + intros _. rewrite unsubscribe_unfold. st_simpl. rewrite Hs. st_simpl.
      split.
      * by rewrite <- !app_assoc.
      * apply same_modulo_gates_insert, same_modulo_gates_refl.
Qed.

Lemma subscribes_snoc tr e :
  subscribes (tr ++ [e]) =
  subscribes tr ++ match e with
                   | EvSubscribe n k => [(n, k)]
                   | _ => []
                   end.
Proof. unfold subscribes. rewrite omap_app. f_equal. by destruct e. Qed.

(** An eligible call that finds a promise in the slot calls nothing. *)
Lemma ensureSubscription_subscribed subscribe self st p :
  eligible st self = true ->
  _subscription (fields st (id self)) = Some p ->
  let st' := (ensureSubscription subscribe self st).2 in
  subscribe_calls st' = subscribe_calls st ∧
  subscribes (trace st') = subscribes (trace st) ∧
  _subscription (fields st' (id self)) = Some p.
Proof.
  intros He Hs. cbn zeta.
  destruct (gate GEnsureSubscription (fields st (id self))) as [g|] eqn:Hg.
  - rewrite (ensureSubscription_joined _ _ _ _ Hg). st_simpl.
    by rewrite subscribes_snoc, app_nil_r.
  - rewrite ensureSubscription_slot, He, Hs by done. split; [|split]; [| |done].
    + unfold ensureSubscription. rewrite gated_idle by (by st_simpl). st_simpl.
      unfold ensureSubscription_body. st_simpl. rewrite eligible_code, He, Hs.
      cbn [negb]. by st_simpl.
    + unfold ensureSubscription. rewrite gated_idle by (by st_simpl). st_simpl.
      unfold ensureSubscription_body. st_simpl. rewrite eligible_code, He, Hs.
      cbn [negb]. st_simpl. by rewrite !subscribes_snoc, !app_nil_r.
Qed.

(** An eligible call on an empty slot calls [subscribe()] once and takes
    the gate. *)
Lemma ensureSubscription_subscribes subscribe self st :
  gate GEnsureSubscription (fields st (id self)) = None ->
  eligible st self = true ->
  _subscription (fields st (id self)) = None ->
  let st' := (ensureSubscription subscribe self st).2 in
  subscribe_calls st' = S (subscribe_calls st) ∧
  subscribes (trace st') = subscribes (trace st) ++ [(id self, subscribe_calls st)] ∧
  gate GEnsureSubscription (fields st' (id self)) =
    Some (ensureSubscription subscribe self st).1.
Proof.
  intros Hg He Hs. cbn zeta.
  unfold ensureSubscription. rewrite gated_idle by (by st_simpl). st_simpl.
  unfold ensureSubscription_body. st_simpl. rewrite eligible_code, He, Hs.
  cbn [negb]. destruct (subscribe _ _); st_simpl; fld_simpl;
    rewrite !subscribes_snoc, ?app_nil_r, <- ?app_assoc; done.
Qed.

(** C8: while the node is eligible, a call of [ensureSubscription] that
    finds a promise in the subscription slot, pending or settled, makes no
    [subscribe()] call and leaves the slot as it is; and of two calls in a
    row on an empty slot the second joins the first: it gets the same
    promise, adds nothing but its own entry to the trace, so that
    [subscribe()] was called exactly once, and the slot holds the one
    subscription (when [subscribe()] did not throw). *)
Theorem ensureSubscription_idempotent (subscribe : NodeId -> nat -> SubResult)
    (self : ViewNode) (st : State) :
  eligible st self = true ->
  (forall p, _subscription (fields st (id self)) = Some p ->
     let st' := (ensureSubscription subscribe self st).2 in
     subscribe_calls st' = subscribe_calls st ∧
     subscribes (trace st') = subscribes (trace st) ∧
     _subscription (fields st' (id self)) = Some p) ∧
  (_subscription (fields st (id self)) = None ->
   gate GEnsureSubscription (fields st (id self)) = None ->
     let r1 := ensureSubscription subscribe self st in
     let r2 := ensureSubscription subscribe self r1.2 in
     r2.1 = r1.1 ∧
     r2.2 = emit (EvCall MEnsureSubscription (id self)) r1.2 ∧
     subscribe_calls r2.2 = S (subscribe_calls st) ∧
     subscribes (trace r2.2) =
       subscribes (trace st) ++ [(id self, subscribe_calls st)] ∧
     _subscription (fields r2.2 (id self)) = _subscription (fields r1.2 (id self)) ∧
     ((forall e, subscribe (id self) (subscribe_calls st) ≠ SubThrow e) ->
      is_Some (_subscription (fields r2.2 (id self))))).
Proof.
  intros He. split.
  - intros p Hs. by apply ensureSubscription_subscribed.
  - intros Hs Hg. cbn zeta.
    destruct (ensureSubscription_subscribes subscribe self st Hg He Hs)
      as (Hc & Ht & Hg1).
    assert (Hslot := ensureSubscription_slot subscribe self st Hg).
    rewrite He, Hs in Hslot.
    rewrite (ensureSubscription_joined _ _ _ _ Hg1). st_simpl.
    rewrite subscribes_snoc, app_nil_r. repeat split; try done.
    intros Hthrow. rewrite Hslot.
    destruct (subscribe _ _); [by destruct (Hthrow e)|by eexists..].
Qed.

(** * Running a call to its end *)

Ltac solve_lookup :=
  st_simpl; repeat (rewrite lookup_total_insert_ne by lia);
  rewrite ?lookup_total_insert_eq; first [reflexivity|eassumption].

(** Decide an [await] or a [settle] of the goal from the current state of
    the promise it names, innermost first. *)
Ltac eval_promise :=
  match goal with
  | |- context [await ?p ?k ?s] =>
    lazymatch s with
    | context [await _ _ _] => fail
    | context [settle _ _ _] => fail
    | _ => first [ erewrite (await_pending p k s) by solve_lookup
                 | erewrite (await_settled p k s) by solve_lookup ]
    end
  | |- context [settle ?p ?o ?s] =>
    lazymatch s with
    | context [await _ _ _] => fail
    | context [settle _ _ _] => fail
    | _ => first [ erewrite (settle_pending p o s) by solve_lookup
                 | erewrite (settle_settled p o s) by solve_lookup ]
    end
  end.

Ltac eval_promises :=
  repeat first [ eval_promise | progress st_simpl | progress cbn [map app] ].

Lemma drain_S fuel st k o js :
  microtasks st = (k, o) :: js ->
  drain (S fuel) st = drain fuel (resume k o (dequeue st)).
Proof. intros H. cbn [drain]. unfold run_microtask. by rewrite H. Qed.

Lemma drain_done fuel st : microtasks st = [] -> drain fuel st = st.
Proof. intros H. destruct fuel; [done|]. cbn [drain]. by rewrite H. Qed.

(** Run the jobs of a queue that is known. *)
Ltac eval_drain :=
  repeat first
    [ erewrite drain_S by (cbn [microtasks]; reflexivity);
      cbn [resume dequeue tail microtasks nodes views promises next_promise
           subscribe_calls trace]
    | rewrite drain_done by (cbn [microtasks]; reflexivity)
    | progress eval_promises ].

(** Open the state, so that every field of it is a term of its own. *)
Ltac open_state st :=
  unfold eligible, subscription_state in *;
  destruct st as [ns vs ps np q sc tr];
  cbn [nodes views promises next_promise microtasks subscribe_calls trace] in *;
  subst.

(** C3, counterexample: [subscribe()] has returned a promise that then
    rejects.  Once the jobs have run, the evaluation is over (the gate is
    free) and the node is still eligible, but the slot still holds the
    rejected promise, and one more [ensureSubscription] does not call
    [subscribe()] again. *)
Lemma rejected_subscription_is_retained :
  promise after_rejection 1 = Settled (Rejected 7) ∧
  microtasks after_rejection = [] ∧
  gate GEnsureSubscription (fields after_rejection (id leaf)) = None ∧
  eligible after_rejection leaf = true ∧
  _subscription (fields after_rejection (id leaf)) = Some 1 ∧
  subscribe_calls after_rejection = 1 ∧
  subscribe_calls (ensureSubscription subscribe_pending leaf after_rejection).2 = 1.
Proof. repeat split; vm_compute; reflexivity. Qed.

(** C3, amended: a failure of [subscribe()] reaches the caller of
    [ensureSubscription]: the promise the call returned rejects with the
    same error.  When [subscribe()] throws, the slot stays empty, the node
    is unsubscribed and the next eligible call invokes [subscribe()]
    again.  When [subscribe()] returns a promise that rejects (at once or
    later), the slot keeps that promise, and the next eligible call does
    not invoke [subscribe()]. *)
Theorem subscribe_failure_propagates (subscribe : NodeId -> nat -> SubResult)
    (self : ViewNode) (st : State) (e : ErrorId) :
  gate GEnsureSubscription (fields st (id self)) = None ->
  eligible st self = true ->
  _subscription (fields st (id self)) = None ->
  microtasks st = [] ->
  let r := ensureSubscription subscribe self st in
  (subscribe (id self) (subscribe_calls st) = SubThrow e ->
     let st2 := drain 1 r.2 in
     promise st2 r.1 = Settled (Rejected e) ∧ microtasks st2 = [] ∧
     subscription_state st2 self = Unsubscribed ∧
     subscribe_calls (ensureSubscription subscribe self st2).2 =
       S (subscribe_calls st2)) ∧
  (forall o, subscribe (id self) (subscribe_calls st) = SubPromise o ->
     o = None ∨ o = Some (Rejected e) ->
     let p := S (next_promise st) in
     let st2 := drain 2 (settle p (Rejected e) r.2) in
     promise st2 r.1 = Settled (Rejected e) ∧ microtasks st2 = [] ∧
     _subscription (fields st2 (id self)) = Some p ∧
     promise st2 p = Settled (Rejected e) ∧
     subscribe_calls (ensureSubscription subscribe self st2).2 =
       subscribe_calls st2).
Proof.
  intros Hg He Hs Hq. cbn zeta. split.
  - intros Hsub.
    assert (Hrun : let st2 := drain 1 (ensureSubscription subscribe self st).2 in
              promise st2 (ensureSubscription subscribe self st).1 = Settled (Rejected e) ∧
              microtasks st2 = [] ∧
              _subscription (fields st2 (id self)) = None ∧
              gate GEnsureSubscription (fields st2 (id self)) = None ∧
              eligible st2 self = true).
    { cbn zeta. unfold ensureSubscription. rewrite gated_idle by (by st_simpl).
      unfold ensureSubscription_body. st_simpl.
      rewrite eligible_code, He, Hs, Hsub. cbn [negb]. st_simpl.
      open_state st. eval_drain. fld_simpl. by rewrite Hs. }
    cbn zeta in Hrun. destruct Hrun as (Hp & Hq2 & Hs2 & Hg2 & He2).
    repeat split; try done.
    + unfold subscription_state. by rewrite Hs2.
    + by apply ensureSubscription_subscribes.
  - intros o Hsub Ho.
    assert (Hrun : let p := S (next_promise st) in
              let st2 := drain 2 (settle p (Rejected e)
                                    (ensureSubscription subscribe self st).2) in
              promise st2 (ensureSubscription subscribe self st).1 = Settled (Rejected e) ∧
              microtasks st2 = [] ∧
              _subscription (fields st2 (id self)) = Some p ∧
              promise st2 p = Settled (Rejected e) ∧
              eligible st2 self = true).
    { cbn zeta. unfold ensureSubscription. rewrite gated_idle by (by st_simpl).
      unfold ensureSubscription_body. st_simpl.
      rewrite eligible_code, He, Hs, Hsub. cbn [negb]. st_simpl.
      open_state st. destruct Ho as [->| ->]; eval_drain; fld_simpl;
        rewrite ?lookup_total_insert_eq; repeat (rewrite lookup_total_insert_ne by lia);
        rewrite ?lookup_total_insert_eq; done. }
    cbn zeta in Hrun. destruct Hrun as (Hp & Hq2 & Hs2 & Hp2 & He2).
    repeat split; try done.
    by eapply ensureSubscription_subscribed.
Qed.

(** C4, counterexample: [subscribe()] has returned a promise that then
    fulfils with no [Disposable].  Once the jobs have run the slot still
    holds that promise: the node is not back to unsubscribed, and one more
    eligible [ensureSubscription] does not call [subscribe()].  The same
    holds of a [subscribe()] that returns [undefined] itself. *)
Lemma empty_subscription_is_retained :
  promise after_nothing 1 = Settled (Fulfilled None) ∧
  microtasks after_nothing = [] ∧
  gate GEnsureSubscription (fields after_nothing (id leaf)) = None ∧
  eligible after_nothing leaf = true ∧
  _subscription (fields after_nothing (id leaf)) = Some 1 ∧
  subscription_state after_nothing leaf = Subscribed ∧
  subscribe_calls after_nothing = 1 ∧
  subscribe_calls (ensureSubscription subscribe_pending leaf after_nothing).2 = 1 ∧
  subscription_state (drain 2 (ensureSubscription subscribe_nothing leaf world).2) leaf
    = Subscribed.
Proof. repeat split; vm_compute; reflexivity. Qed.

(** C4, amended: on an eligible node with an empty slot and no evaluation
    in flight, [ensureSubscription] calls [subscribe()] and records the
    promise of its result in the slot: the node is pending while that
    promise is, and subscribed once it has settled.  The slot keeps the
    promise whatever it resolves to, a [Disposable] or nothing: for as
    long as only jobs run and promises settle the node never goes back to
    unsubscribed, and a further eligible [ensureSubscription] does not
    call [subscribe()]. *)
Theorem ensureSubscription_records_promise (subscribe : NodeId -> nat -> SubResult)
    (self : ViewNode) (st : State) :
  gate GEnsureSubscription (fields st (id self)) = None ->
  eligible st self = true ->
  _subscription (fields st (id self)) = None ->
  (forall e, subscribe (id self) (subscribe_calls st) ≠ SubThrow e) ->
  let st1 := (ensureSubscription subscribe self st).2 in
  let p := S (next_promise st) in
  subscribes (trace st1) = subscribes (trace st) ++ [(id self, subscribe_calls st)] ∧
  _subscription (fields st1 (id self)) = Some p ∧
  promise st1 p =
    match subscribe (id self) (subscribe_calls st) with
    | SubReturn v => Settled (Fulfilled v)
    | SubPromise (Some o) => Settled o
    | _ => Pending [KEnsureSubscribed (id self) (next_promise st)]
    end ∧
  forall st2, rtc env_step st1 st2 ->
    _subscription (fields st2 (id self)) = Some p ∧
    subscription_state st2 self =
      match promise st2 p with
      | Pending _ => SubscriptionPending
      | Settled _ => Subscribed
      end ∧
    subscribe_calls (ensureSubscription subscribe self st2).2 = subscribe_calls st2.
Proof.
  intros Hg He Hs Hthrow. cbn zeta.
  assert (Hslot := ensureSubscription_slot subscribe self st Hg).
  rewrite He, Hs in Hslot.
  assert (Hslot1 : _subscription (fields (ensureSubscription subscribe self st).2 (id self))
                   = Some (S (next_promise st))).
  { rewrite Hslot. destruct (subscribe _ _); [by destruct (Hthrow e)|done..]. }
  split; [by apply ensureSubscription_subscribes|]. split; [done|]. split.
  - clear Hslot Hslot1.
    unfold ensureSubscription. rewrite gated_idle by (by st_simpl).
    unfold ensureSubscription_body. st_simpl.
    rewrite eligible_code, He, Hs. cbn [negb].
    open_state st.
    destruct (subscribe _ _) as [e|v|[o|]]; [by destruct (Hthrow e)|..];
      eval_promises; repeat (rewrite lookup_total_insert_ne by lia);
      by rewrite lookup_total_insert_eq.
  - intros st2 Hsteps. destruct (env_steps_frame _ _ Hsteps) as (tr & Hfr).
    assert (Hs2 : _subscription (fields st2 (id self)) = Some (S (next_promise st))).
    { by rewrite (frame_subscription _ _ _ _ Hfr). }
    split; [done|]. split.
    + unfold subscription_state. by rewrite Hs2.
    + eapply ensureSubscription_subscribed; [|done].
      by rewrite (frame_eligible _ _ _ _ Hfr), ensureSubscription_eligible.
Qed.

(** * Teardown *)

Lemma waiting_progress p k base st :
  base ≤ length (trace st) -> waiting p k st -> unsubscribe_progress p k base st.
Proof.
  intros Hb [H|(o & Ho & H)]; (split; [done|]); [by left|].
  right. exists o. split; [done|by left].
Qed.

Lemma unsubscribe_waiting self st p :
  _subscription (fields st (id self)) = Some p ->
  waiting p (KUnsubscribe (id self) (unsubscribe self st).1) (unsubscribe self st).2.
Proof.
  intros Hs. rewrite unsubscribe_unfold, Hs. cbn [fst snd].
  set (st0 := upd_node _ _ _).
  destruct (promise st0 p) as [rs|o] eqn:Hp.
  - rewrite (await_pending _ _ _ _ Hp). left. st_simpl.
    eexists. split; [done|]. rewrite elem_of_app. right.
    by apply list_elem_of_singleton.
  - rewrite (await_settled _ _ _ _ Hp). right. st_simpl.
    exists o. split; [done|].
    rewrite elem_of_app. right. by apply list_elem_of_singleton.
Qed.

Lemma foldl_emit_frame (f : Disposable -> Event) ds st :
  let st' := foldl (fun st d => emit (f d) st) st ds in
  nodes st' = nodes st ∧ promises st' = promises st ∧
  microtasks st' = microtasks st ∧ trace st' = trace st ++ map f ds.
Proof.
  cbn zeta. revert st. induction ds as [|d ds IH]; intros st; cbn [foldl map].
  - by rewrite app_nil_r.
  - destruct (IH (emit (f d) st)) as (Hn & Hp & Hq & Ht).
    rewrite Hn, Hp, Hq, Ht. st_simpl. by rewrite <- app_assoc.
Qed.

(** C5, counterexample: [dispose()] has returned with the listeners
    disposed while the [subscribe()] promise is still pending; the
    resource it later fulfils with is disposed after them, by a job. *)
Lemma listeners_are_disposed_first :
  trace disposed =
    [EvListen (DListener OnDidChangeVisibility 0 3);
     EvListen (DListener OnDidChangeNodeState 0 3);
     EvCall MEnsureSubscription 3; EvSubscribe 3 0;
     EvCall MUnsubscribe 3;
     EvDispose (DListener OnDidChangeVisibility 0 3);
     EvDispose (DListener OnDidChangeNodeState 0 3)] ∧
  promise disposed 1 = Pending [KEnsureSubscribed 3 0; KUnsubscribe 3 3] ∧
  trace after_teardown =
    trace disposed ++
    [EvReturn MEnsureSubscription 3; EvDispose (DResource 9);
     EvReturn MUnsubscribe 3].
Proof. repeat split; vm_compute; reflexivity. Qed.

(** C5, amended: [dispose()] on a node with a promise [p] in its
    subscription slot empties the slot, leaves the rest of [unsubscribe]
    waiting for [p], and disposes the listener registrations at once,
    before it returns and without waiting for [p].  The [Disposable] that
    [p] fulfils with is disposed afterwards: once [p] has fulfilled with
    it and the job queue has run dry, its disposal is in the trace, after
    those of the listeners. *)
Theorem dispose_teardown (self : ViewNode) (st : State) (p : PromiseId)
    (ds : list Disposable) :
  _subscription (fields st (id self)) = Some p ->
  _disposable (fields st (id self)) = Some ds ->
  let st1 := dispose self st in
  _subscription (fields st1 (id self)) = None ∧
  trace st1 = trace st ++ EvCall MUnsubscribe (id self) :: map EvDispose ds ∧
  waiting p (KUnsubscribe (id self) (next_promise st)) st1 ∧
  forall st2, rtc env_step st1 st2 ->
    forall d, microtasks st2 = [] ->
              promise st2 p = Settled (Fulfilled (Some d)) ->
              EvDispose d ∈ drop (length (trace st1)) (trace st2).
Proof.
  intros Hs Hd. cbn zeta. unfold dispose. cbn zeta.
  assert (Hdisp : _disposable (fields (unsubscribe self st).2 (id self)) = Some ds).
  { rewrite unsubscribe_nodes, Hs. st_simpl. fld_simpl. done. }
  rewrite Hdisp.
  destruct (foldl_emit_frame EvDispose ds (unsubscribe self st).2)
    as (Hn & Hp & Hq & Ht). cbn zeta in *.
  assert (Hw : waiting p (KUnsubscribe (id self) (next_promise st))
                 (upd_node (id self) (set_disposable (Some []))
                    (foldl (fun st d => emit (EvDispose d) st)
                       (unsubscribe self st).2 ds))).
  { generalize (unsubscribe_waiting self st p Hs). unfold waiting.
    cbn [promises microtasks upd_node].
    rewrite Hp, Hq. by rewrite unsubscribe_unfold. }
  split; [|split; [|split]].
  - st_simpl. fld_simpl. rewrite Hn. apply unsubscribe_slot.
  - st_simpl. rewrite Ht, unsubscribe_trace, Hs. by rewrite <- app_assoc.
  - done.
  - intros st2 Hsteps d Hq2 Hd2.
    eapply progress_disposed; [|done..].
    eapply progress_env_steps; [exact Hsteps|].
    by apply waiting_progress.
Qed.

(** * The visibility handler *)








(** * Concrete runs *)

Lemma drain_steps fuel st : rtc env_step st (drain fuel st).
Proof.
  revert st. induction fuel as [|fuel IH]; intros st; cbn [drain]; [done|].
  destruct (microtasks st); [done|].
  eapply rtc_l; [apply step_microtask|apply IH].
Qed.

Lemma world_chain : chain (nodes world) leaf [lower; upper] (Some root).
Proof.
  apply chain_splatted; [reflexivity|vm_compute; reflexivity|].
  apply chain_splatted; [reflexivity|vm_compute; reflexivity|].
  apply chain_top; [reflexivity|vm_compute; reflexivity].
Qed.

(** C1 on the tree of [world]: below [lower] and [upper], the parent of
    [leaf] is [root], and a change triggered on [lower] refreshes [root]. *)
Lemma splatted_chain_delegation_witness :
  getParent world leaf = Some root ∧
  refreshes (trace (triggerChange lower true false world).2) =
    refreshes (trace world) ++ [(view root, id root, true, false)].
Proof.
  destruct (splatted_chain_delegation world leaf [lower; upper] (Some root)
              world_chain) as [Hp Ht].
  split; [exact Hp|].
  destruct (Ht root [] lower [upper] true false eq_refl eq_refl) as (_ & _ & _ & H).
  apply H. intros x Hx. cbn [app] in Hx. rewrite !elem_of_cons in Hx.
  destruct Hx as [->|[->|[->|Hx]]]; [vm_compute; reflexivity..|].
  by apply not_elem_of_nil in Hx.
Defined.

(** C2 on a subscribed node whose view is hidden: the run empties the
    slot and the resource is disposed by the time the jobs have run. *)
Lemma ensureSubscription_gating_witness :
  let st1 := (ensureSubscription subscribe_pending leaf subscribed_hidden).2 in
  eligible (drain 3 st1) leaf = false ∧
  _subscription (fields (drain 3 st1) (id leaf)) = None ∧
  EvDispose (DResource 5) ∈ drop (length (trace st1)) (trace (drain 3 st1)).
Proof.
  cbn zeta.
  assert (Hidle : gate GEnsureSubscription (fields subscribed_hidden (id leaf)) = None)
    by (vm_compute; reflexivity).
  assert (Hne : eligible subscribed_hidden leaf = false) by (vm_compute; reflexivity).
  assert (Hthrow : eligible subscribed_hidden leaf = true ->
            _subscription (fields subscribed_hidden (id leaf)) = None ->
            forall e, subscribe_pending (id leaf) (subscribe_calls subscribed_hidden)
                      ≠ SubThrow e) by (intros _ _ e; discriminate).
  destruct (ensureSubscription_gating subscribe_pending leaf subscribed_hidden
              Hidle Hthrow _ (drain_steps 3 _)) as (He & _ & H).
  destruct (H Hne) as [Hs Hd].
  split; [by rewrite He|]. split; [exact Hs|].
  change (_subscription (fields subscribed_hidden (id leaf))) with (Some 0) in Hd.
  apply Hd; [vm_compute; lia|vm_compute; reflexivity..].
Defined.

Lemma world_leaf_ready :
  gate GEnsureSubscription (fields world (id leaf)) = None ∧
  eligible world leaf = true ∧
  _subscription (fields world (id leaf)) = None ∧
  microtasks world = [].
Proof. repeat split; vm_compute; reflexivity. Qed.

(** C3 on the leaf of [world], with a [subscribe()] that throws and with
    one whose promise rejects. *)
Lemma subscribe_failure_propagates_witness :
  promise (drain 1 (ensureSubscription subscribe_throws leaf world).2)
    (ensureSubscription subscribe_throws leaf world).1 = Settled (Rejected 7) ∧
  subscription_state (drain 1 (ensureSubscription subscribe_throws leaf world).2) leaf
    = Unsubscribed ∧
  promise (drain 2 (settle 1 (Rejected 7)
                      (ensureSubscription subscribe_pending leaf world).2))
    (ensureSubscription subscribe_pending leaf world).1 = Settled (Rejected 7) ∧
  _subscription (fields (drain 2 (settle 1 (Rejected 7)
                      (ensureSubscription subscribe_pending leaf world).2)) (id leaf))
    = Some 1.
Proof.
  destruct world_leaf_ready as (Hg & He & Hs & Hq).
  destruct (subscribe_failure_propagates subscribe_throws leaf world 7 Hg He Hs Hq)
    as [Hthrow _].
  destruct (subscribe_failure_propagates subscribe_pending leaf world 7 Hg He Hs Hq)
    as [_ Hreject].
  destruct (Hthrow eq_refl) as (H1 & _ & H2 & _).
  destruct (Hreject None eq_refl (or_introl eq_refl)) as (H3 & _ & H4 & _).
  repeat split; assumption.
Defined.

(** C4 on the leaf of [world], with a [subscribe()] that returns a
    resource. *)
Lemma ensureSubscription_records_promise_witness :
  _subscription (fields (ensureSubscription subscribe_resource leaf world).2 (id leaf))
    = Some 1 ∧
  promise (ensureSubscription subscribe_resource leaf world).2 1
    = Settled (Fulfilled (Some (DResource 0))) ∧
  subscription_state (drain 2 (ensureSubscription subscribe_resource leaf world).2) leaf
    = Subscribed.
Proof.
  destruct world_leaf_ready as (Hg & He & Hs & _).
  assert (Hthrow : forall e, subscribe_resource (id leaf) (subscribe_calls world)
                             ≠ SubThrow e) by (intros e; discriminate).
  destruct (ensureSubscription_records_promise subscribe_resource leaf world
              Hg He Hs Hthrow) as (_ & H1 & H2 & H3).
  split; [exact H1|]. split; [exact H2|].
  destruct (H3 _ (drain_steps 2 _)) as (_ & H4 & _).
  rewrite H4. vm_compute. reflexivity.
Defined.

(** C5 on the leaf, disposed while its [subscribe()] promise is pending. *)
Lemma dispose_teardown_witness :
  _subscription (fields disposed (id leaf)) = None ∧
  trace disposed =
    trace subscribing ++
    EvCall MUnsubscribe (id leaf) ::
      map EvDispose [DListener OnDidChangeVisibility 0 3;
                     DListener OnDidChangeNodeState 0 3] ∧
  EvDispose (DResource 9) ∈ drop (length (trace disposed)) (trace after_teardown).
Proof.
  assert (Hs : _subscription (fields subscribing (id leaf)) = Some 1)
    by (vm_compute; reflexivity).
  assert (Hd : _disposable (fields subscribing (id leaf)) =
               Some [DListener OnDidChangeVisibility 0 3;
                     DListener OnDidChangeNodeState 0 3])
    by (vm_compute; reflexivity).
  destruct (dispose_teardown leaf subscribing 1 _ Hs Hd) as (H1 & H2 & _ & H3).
  split; [exact H1|]. split; [exact H2|].
  apply H3.
  - unfold after_teardown. eapply rtc_l; [apply step_settle|apply drain_steps].
  - vm_compute. reflexivity.
  - vm_compute. reflexivity.
Defined.

(** C8 on a subscribed node, and on two calls in a row on the leaf of
    [world]. *)
Lemma ensureSubscription_idempotent_witness :
  subscribe_calls (ensureSubscription subscribe_resource leaf subscribed_visible).2 = 1 ∧
  (ensureSubscription subscribe_resource leaf
     (ensureSubscription subscribe_resource leaf world).2).1 =
  (ensureSubscription subscribe_resource leaf world).1 ∧
  subscribes (trace (ensureSubscription subscribe_resource leaf
                       (ensureSubscription subscribe_resource leaf world).2).2) =
  subscribes (trace world) ++ [(id leaf, subscribe_calls world)].
Proof.
  assert (He : eligible subscribed_visible leaf = true) by (vm_compute; reflexivity).
  destruct (ensureSubscription_idempotent subscribe_resource leaf subscribed_visible He)
    as [H1 _].
  destruct (H1 0 eq_refl) as (Hc & _ & _).
  destruct world_leaf_ready as (Hg & He' & Hs & _).
  destruct (ensureSubscription_idempotent subscribe_resource leaf world He')
    as [_ H2].
  destruct (H2 Hs Hg) as (Hj & _ & _ & Ht & _).
  split; [exact Hc|]. split; [exact Hj|exact Ht].
Defined.

(** C7 on a node with both hooks: an event on the node, one on its
    parent, one on another node. *)
Lemma onNodeStateChanged_routing_witness :
  _state (fields (onNodeStateChanged leaf 3 Expanded subscribed_visible) (id leaf))
    = Some Expanded ∧
  trace (onNodeStateChanged leaf 3 Expanded subscribed_visible) =
    [EvOnStateChanged 3 Expanded] ∧
  trace (onNodeStateChanged leaf 2 Collapsed subscribed_visible) =
    [EvOnParentStateChanged 3 Collapsed] ∧
  onNodeStateChanged leaf 1 Collapsed subscribed_visible = subscribed_visible.
Proof.
  destruct (onNodeStateChanged_routing leaf 3 Expanded subscribed_visible)
    as (Hself & _ & _).
  destruct (onNodeStateChanged_routing leaf 2 Collapsed subscribed_visible)
    as (_ & Hparent & _).
  destruct (onNodeStateChanged_routing leaf 1 Collapsed subscribed_visible)
    as (_ & _ & Hother).
  destruct (Hself eq_refl) as (_ & H1 & H2).
  destruct (Hparent ltac:(discriminate) eq_refl) as (_ & H3).
  split; [exact H1|]. split; [exact H2|]. split; [exact H3|].
  apply Hother; discriminate.
Defined.



(** * Further properties of the node classes *)

(** ** [getParent] and [triggerChange] on any node *)

(** X1: on every node, [getParent] answers the nearest ancestor that is
    not splatted: all the ancestors it skips are splatted, the node it
    answers is not, and it answers nothing exactly when every ancestor up
    to the root is splatted. *)
Theorem getParent_nearest_unsplatted (st : State) (n : ViewNode) :
  exists l,
    chain (nodes st) n l (getParent st n) ∧
    Forall (fun a => splatted (fields st (id a)) = true) l ∧
    (forall p, getParent st n = Some p -> splatted (fields st (id p)) = false).
Proof.
  induction n as [i v|i v p (l & Hch & Hl & Hp)] using ViewNode_parent_ind.
  - exists []. split; [by apply chain_root|]. split; [done|]. intros p Hp.
    rewrite getParent_unfold in Hp. done.
  - rewrite getParent_unfold. cbn [parent].
    destruct (splatted (fields st (id p))) eqn:Hs.
    + exists (p :: l). split; [by apply chain_splatted|].
      split; [by constructor|done].
    + exists []. split; [by apply chain_top|]. split; [done|].
      intros q Hq. by simplify_eq.
Qed.

Lemma getParent_emit e st n : getParent (emit e st) n = getParent st n.
Proof.
  induction n as [i v|i v p IH] using ViewNode_parent_ind;
    rewrite !(getParent_unfold _ (mkViewNode _ _ _)); cbn [parent]; [done|].
  st_simpl. by rewrite IH.
Qed.

Lemma refresh_target_emit e st n : refresh_target (emit e st) n = refresh_target st n.
Proof. unfold refresh_target. st_simpl. by rewrite getParent_emit. Qed.

Lemma refresh_target_parent st i v p :
  splatted (fields st i) = true ->
  refresh_target st (mkViewNode i v (Some p)) = refresh_target st p.
Proof.
  intros Hs. unfold refresh_target. cbn [id parent]. rewrite Hs.
  rewrite (getParent_unfold _ (mkViewNode _ _ _)). cbn [parent root_of].
  destruct (splatted (fields st (id p))) eqn:Hp; [|done].
  destruct p as [j w [q|]]; cbn [parent root_of]; [done|].
  by rewrite getParent_unfold.
Qed.

(** X2: when no [triggerChange] is in flight anywhere, a [triggerChange]
    on any node adds exactly one [refreshNode] call, with the [reset] and
    [force] it was given: on the node itself when it is not splatted or
    has no parent, and otherwise on its nearest ancestor that is not
    splatted or, when they all are, on the topmost one. *)
Theorem triggerChange_refreshes_target (self : ViewNode) (reset force : bool)
    (st : State) :
  (forall x : NodeId, gate GTriggerChange (fields st x) = None) ->
  refreshes (trace (triggerChange self reset force st).2) =
  refreshes (trace st) ++
    [(view (refresh_target st self), id (refresh_target st self), reset, force)].
Proof.
  revert st. induction self as [i v|i v p IH] using ViewNode_parent_ind;
    intros st Hidle; rewrite triggerChange_unfold, gated_idle by (st_simpl; apply Hidle);
    st_simpl; cbn [id parent view].
  - unfold refresh_target. cbn [id parent].
    destruct (splatted _); unfold refreshNode; st_simpl;
      by rewrite !refreshes_snoc, app_nil_r.
  - destruct (splatted (nodes st !!! i)) eqn:Hs.
    + rewrite IH by (intros x; st_simpl; apply Hidle).
      st_simpl. rewrite refreshes_snoc, app_nil_r.
      by rewrite refresh_target_emit, refresh_target_parent.
    + unfold refresh_target. cbn [id]. rewrite Hs.
      unfold refreshNode. st_simpl. by rewrite !refreshes_snoc, app_nil_r.
Qed.

Lemma triggerChange_refreshes_target_witness :
  refreshes (trace (triggerChange lower true true world).2) = [(0, 0, true, true)] ∧
  refreshes (trace (triggerChange leaf false true world).2) = [(0, 3, false, true)].
Proof.
  assert (Hidle : forall x : NodeId, gate GTriggerChange (fields world x) = None).
  { intros x. unfold world. cbn [nodes].
    destruct (decide (x = 1)) as [->|H1]; [vm_compute; reflexivity|].
    destruct (decide (x = 2)) as [->|H2]; [vm_compute; reflexivity|].
    rewrite lookup_total_alt, lookup_insert_ne, lookup_singleton_ne by done. done. }
  split.
  - rewrite (triggerChange_refreshes_target lower true true world Hidle).
    vm_compute. reflexivity.
  - rewrite (triggerChange_refreshes_target leaf false true world Hidle).
    vm_compute. reflexivity.
Defined.

(** X4: the gate of [triggerChange] is given back when the host's refresh
    is over, however it ends.  On a node that refreshes itself, with
    nothing in flight and no job waiting: once the promise of
    [refreshNode] has settled and the job has run, the promise the caller
    got has settled the same way, the gate is free, and the next
    [triggerChange] asks the host again. *)
Theorem triggerChange_gate_released (self : ViewNode) (reset force reset' force' : bool)
    (o : Outcome) (st : State) :
  splatted (fields st (id self)) = false ->
  gate GTriggerChange (fields st (id self)) = None ->
  microtasks st = [] ->
  let r1 := triggerChange self reset force st in
  let st2 := drain 1 (settle (next_promise st) o r1.2) in
  promise st2 r1.1 = Settled o ∧
  microtasks st2 = [] ∧
  gate GTriggerChange (fields st2 (id self)) = None ∧
  refreshes (trace (triggerChange self reset' force' st2).2) =
    refreshes (trace st) ++ [(view self, id self, reset, force);
                             (view self, id self, reset', force')].
Proof.
  intros Hs Hg Hq. cbn zeta.
  assert (Hrun : let st2 := drain 1 (settle (next_promise st) o
                                  (triggerChange self reset force st).2) in
            promise st2 (triggerChange self reset force st).1 = Settled o ∧
            microtasks st2 = [] ∧
            gate GTriggerChange (fields st2 (id self)) = None ∧
            splatted (fields st2 (id self)) = false ∧
            refreshes (trace st2) =
              refreshes (trace st) ++ [(view self, id self, reset, force)]).
  { cbn zeta. rewrite triggerChange_unfold, gated_idle by (by st_simpl).
    st_simpl. rewrite Hs. unfold refreshNode. st_simpl.
    open_state st. eval_drain. fld_simpl.
    rewrite !refreshes_snoc, ?app_nil_r. by repeat split. }
  cbn zeta in Hrun. destruct Hrun as (Hp & Hq2 & Hg2 & Hs2 & Ht).
  repeat split; try done.
  rewrite triggerChange_not_splatted by done. by rewrite Ht, <- app_assoc.
Qed.

Lemma triggerChange_gate_released_witness :
  promise (drain 1 (settle 0 (Rejected 7) (triggerChange root true false world).2))
    (triggerChange root true false world).1 = Settled (Rejected 7) ∧
  refreshes (trace (triggerChange root false false
     (drain 1 (settle 0 (Rejected 7) (triggerChange root true false world).2))).2) =
  [(0, 0, true, false); (0, 0, false, false)].
Proof.
  destruct (triggerChange_gate_released root true false false false (Rejected 7) world)
    as (H1 & _ & _ & H2); [vm_compute; reflexivity..|].
  split; [exact H1|exact H2].
Defined.

(** ** The subscription, run to its end *)

(** X5: an [ensureSubscription] on a node that is not eligible never calls
    [subscribe()], whether it starts an evaluation or joins one. *)
Theorem ensureSubscription_ineligible_never_subscribes
    (subscribe : NodeId -> nat -> SubResult) (self : ViewNode) (st : State) :
  eligible st self = false ->
  subscribe_calls (ensureSubscription subscribe self st).2 = subscribe_calls st ∧
  subscribes (trace (ensureSubscription subscribe self st).2) = subscribes (trace st).
Proof.
  intros He.
  destruct (gate GEnsureSubscription (fields st (id self))) as [g|] eqn:Hg.
  - rewrite (ensureSubscription_joined _ _ _ _ Hg). st_simpl.
    by rewrite subscribes_snoc, app_nil_r.
  - rewrite ensureSubscription_not_eligible by done. cbn [snd]. st_simpl.
    rewrite unsubscribe_subscribe_calls, unsubscribe_trace. st_simpl.
    split; [done|].
    unfold subscribes. rewrite !omap_app.
    destruct (_subscription _); cbn [omap list_omap]; by rewrite ?app_nil_r.
Qed.

Lemma ensureSubscription_ineligible_never_subscribes_witness :
  subscribe_calls (ensureSubscription subscribe_resource leaf subscribed_hidden).2 = 1.
Proof.
  destruct (ensureSubscription_ineligible_never_subscribes subscribe_resource leaf
              subscribed_hidden) as [H _]; [vm_compute; reflexivity|exact H].
Defined.

Lemma disposals_app tr tr' : disposals (tr ++ tr') = disposals tr ++ disposals tr'.
Proof. apply omap_app. Qed.

(** X6: tearing a subscription down, run to its end.  On a node that is
    not eligible and holds a promise that has fulfilled, with nothing in
    flight and no job waiting, three jobs complete [ensureSubscription]:
    [unsubscribe] disposes the [Disposable] the promise holds, once, and
    returns, and only then does [ensureSubscription] return; the promise
    the caller got is fulfilled, the slot is empty, the gate is free, and
    neither [subscribe()] nor a refresh was called. *)
Theorem ensureSubscription_teardown_completes
    (subscribe : NodeId -> nat -> SubResult) (self : ViewNode) (st : State)
    (p : PromiseId) (v : option Disposable) :
  gate GEnsureSubscription (fields st (id self)) = None ->
  eligible st self = false ->
  _subscription (fields st (id self)) = Some p ->
  promise st p = Settled (Fulfilled v) ->
  p < next_promise st ->
  microtasks st = [] ->
  let r := ensureSubscription subscribe self st in
  let st2 := drain 3 r.2 in
  trace st2 = trace st ++
    [EvCall MEnsureSubscription (id self); EvCall MUnsubscribe (id self)] ++
    match v with Some d => [EvDispose d] | None => [] end ++
    [EvReturn MUnsubscribe (id self); EvReturn MEnsureSubscription (id self)] ∧
  promise st2 r.1 = Settled (Fulfilled None) ∧
  microtasks st2 = [] ∧
  _subscription (fields st2 (id self)) = None ∧
  gate GEnsureSubscription (fields st2 (id self)) = None ∧
  subscribe_calls st2 = subscribe_calls st.
Proof.
  intros Hg He Hs Hp Hlt Hq. cbn zeta.
  rewrite ensureSubscription_not_eligible by done. cbn [fst snd].
  rewrite unsubscribe_unfold. st_simpl. rewrite Hs. cbn [fst snd].
  clear He. open_state st.
  destruct v as [d|]; eval_drain; fld_simpl;
    repeat (rewrite lookup_total_insert_ne by lia);
    rewrite ?lookup_total_insert_eq, <- ?app_assoc; by repeat split.
Qed.

Lemma ensureSubscription_teardown_completes_witness :
  trace (drain 3 (ensureSubscription subscribe_resource leaf subscribed_hidden).2) =
    [EvCall MEnsureSubscription 3; EvCall MUnsubscribe 3; EvDispose (DResource 5);
     EvReturn MUnsubscribe 3; EvReturn MEnsureSubscription 3].
Proof.
  destruct (ensureSubscription_teardown_completes subscribe_resource leaf
              subscribed_hidden 0 (Some (DResource 5))) as [H _];
    [vm_compute; try reflexivity; lia..|exact H].
Defined.

(** X7: a subscription whose promise has rejected is cleared by the next
    teardown, which fails with the same error.  On a node that is not
    eligible and holds a rejected promise, with nothing in flight and no
    job waiting: [unsubscribe] and then [ensureSubscription] throw, the
    promise the caller got rejects with the error of the subscription,
    nothing is disposed, and the slot is left empty and the gate free. *)
Theorem ensureSubscription_teardown_rethrows
    (subscribe : NodeId -> nat -> SubResult) (self : ViewNode) (st : State)
    (p : PromiseId) (e : ErrorId) :
  gate GEnsureSubscription (fields st (id self)) = None ->
  eligible st self = false ->
  _subscription (fields st (id self)) = Some p ->
  promise st p = Settled (Rejected e) ->
  p < next_promise st ->
  microtasks st = [] ->
  let r := ensureSubscription subscribe self st in
  let st2 := drain 3 r.2 in
  trace st2 = trace st ++
    [EvCall MEnsureSubscription (id self); EvCall MUnsubscribe (id self);
     EvThrow MUnsubscribe (id self) e; EvThrow MEnsureSubscription (id self) e] ∧
  promise st2 r.1 = Settled (Rejected e) ∧
  microtasks st2 = [] ∧
  _subscription (fields st2 (id self)) = None ∧
  gate GEnsureSubscription (fields st2 (id self)) = None.
Proof.
  intros Hg He Hs Hp Hlt Hq. cbn zeta.
  rewrite ensureSubscription_not_eligible by done. cbn [fst snd].
  rewrite unsubscribe_unfold. st_simpl. rewrite Hs. cbn [fst snd].
  clear He. open_state st.
  eval_drain; fld_simpl;
    repeat (rewrite lookup_total_insert_ne by lia);
    rewrite ?lookup_total_insert_eq, <- ?app_assoc; by repeat split.
Qed.

Lemma ensureSubscription_teardown_rethrows_witness :
  promise (drain 3 (ensureSubscription subscribe_resource leaf subscribed_rejected).2)
    (ensureSubscription subscribe_resource leaf subscribed_rejected).1
    = Settled (Rejected 7) ∧
  _subscription (fields (drain 3 (ensureSubscription subscribe_resource leaf
                                    subscribed_rejected).2) (id leaf)) = None.
Proof.
  destruct (ensureSubscription_teardown_rethrows subscribe_resource leaf
              subscribed_rejected 0 7) as (_ & H1 & _ & H2 & _);
    [vm_compute; try reflexivity; lia..|].
  split; [exact H1|exact H2].
Defined.

(** X8: establishing a subscription, run to its end.  On an eligible node
    with an empty slot, nothing in flight and no job waiting, whose
    [subscribe()] returns its result at once, two jobs complete
    [ensureSubscription]: the promise the caller got is fulfilled, the
    slot holds a promise fulfilled with what [subscribe()] returned, the
    gate is free, and nothing was disposed or refreshed. *)
Theorem ensureSubscription_subscribe_completes
    (subscribe : NodeId -> nat -> SubResult) (self : ViewNode) (st : State)
    (v : option Disposable) :
  gate GEnsureSubscription (fields st (id self)) = None ->
  eligible st self = true ->
  _subscription (fields st (id self)) = None ->
  subscribe (id self) (subscribe_calls st) = SubReturn v ->
  microtasks st = [] ->
  let r := ensureSubscription subscribe self st in
  let st2 := drain 2 r.2 in
  trace st2 = trace st ++
    [EvCall MEnsureSubscription (id self); EvSubscribe (id self) (subscribe_calls st);
     EvReturn MEnsureSubscription (id self)] ∧
  promise st2 r.1 = Settled (Fulfilled None) ∧
  microtasks st2 = [] ∧
  _subscription (fields st2 (id self)) = Some (S (next_promise st)) ∧
  promise st2 (S (next_promise st)) = Settled (Fulfilled v) ∧
  gate GEnsureSubscription (fields st2 (id self)) = None.
Proof.
  intros Hg He Hs Hsub Hq. cbn zeta.
  unfold ensureSubscription. rewrite gated_idle by (by st_simpl).
  unfold ensureSubscription_body. st_simpl.
  rewrite eligible_code, He, Hs, Hsub. cbn [negb]. st_simpl.
  clear He. open_state st.
  eval_drain; fld_simpl;
    repeat (rewrite lookup_total_insert_ne by lia);
    rewrite ?lookup_total_insert_eq, <- ?app_assoc; by repeat split.
Qed.

Lemma ensureSubscription_subscribe_completes_witness :
  trace (drain 2 (ensureSubscription subscribe_resource leaf world).2) =
    [EvCall MEnsureSubscription 3; EvSubscribe 3 0; EvReturn MEnsureSubscription 3] ∧
  promise (drain 2 (ensureSubscription subscribe_resource leaf world).2) 1
    = Settled (Fulfilled (Some (DResource 0))).
Proof.
  destruct world_leaf_ready as (Hg & He & Hs & Hq).
  destruct (ensureSubscription_subscribe_completes subscribe_resource leaf world
              (Some (DResource 0)) Hg He Hs eq_refl Hq) as (H1 & _ & _ & _ & H2 & _).
  split; [exact H1|exact H2].
Defined.

(** X9: two [unsubscribe] calls in a row dispose the subscription once.
    On a node that holds a promise fulfilled with a [Disposable], with no
    job waiting: the first call empties the slot and waits, the second
    finds it empty and returns at once; when the jobs have run the
    [Disposable] was disposed exactly once and both promises are
    fulfilled. *)
Theorem unsubscribe_twice_disposes_once (self : ViewNode) (st : State)
    (p : PromiseId) (d : Disposable) :
  _subscription (fields st (id self)) = Some p ->
  promise st p = Settled (Fulfilled (Some d)) ->
  p < next_promise st ->
  microtasks st = [] ->
  let r1 := unsubscribe self st in
  let r2 := unsubscribe self r1.2 in
  let st2 := drain 1 r2.2 in
  trace st2 = trace st ++
    [EvCall MUnsubscribe (id self);
     EvCall MUnsubscribe (id self); EvReturn MUnsubscribe (id self);
     EvDispose d; EvReturn MUnsubscribe (id self)] ∧
  disposals (trace st2) = disposals (trace st) ++ [d] ∧
  promise st2 r1.1 = Settled (Fulfilled None) ∧
  promise st2 r2.1 = Settled (Fulfilled None) ∧
  microtasks st2 = [] ∧
  _subscription (fields st2 (id self)) = None.
Proof.
  intros Hs Hp Hlt Hq. cbn zeta.
  assert (Hrun : let st2 := drain 1 (unsubscribe self (unsubscribe self st).2).2 in
    trace st2 = trace st ++
      [EvCall MUnsubscribe (id self);
       EvCall MUnsubscribe (id self); EvReturn MUnsubscribe (id self);
       EvDispose d; EvReturn MUnsubscribe (id self)] ∧
    promise st2 (unsubscribe self st).1 = Settled (Fulfilled None) ∧
    promise st2 (unsubscribe self (unsubscribe self st).2).1 = Settled (Fulfilled None) ∧
    microtasks st2 = [] ∧
    _subscription (fields st2 (id self)) = None).
  { cbn zeta. rewrite (unsubscribe_unfold self st), Hs. cbn [fst snd].
    rewrite unsubscribe_unfold. cbn [fst snd]. st_simpl. fld_simpl.
    open_state st.
    eval_drain; fld_simpl;
      repeat (rewrite lookup_total_insert_ne by lia);
      rewrite ?lookup_total_insert_eq, <- ?app_assoc; by repeat split. }
  cbn zeta in Hrun. destruct Hrun as (Ht & Hp1 & Hp2 & Hq2 & Hs2).
  repeat split; try done.
  rewrite Ht, disposals_app. f_equal.
Qed.

Lemma unsubscribe_twice_disposes_once_witness :
  disposals (trace (drain 1 (unsubscribe leaf
                               (unsubscribe leaf subscribed_hidden).2).2)) =
  [DResource 5].
Proof.
  destruct (unsubscribe_twice_disposes_once leaf subscribed_hidden 0 (DResource 5))
    as (_ & H & _); [vm_compute; try reflexivity; lia..|exact H].
Defined.

(** ** Construction and disposal *)



Lemma dispose_unfold self st :
  let st1 := (unsubscribe self st).2 in
  nodes (dispose self st) =
    match _disposable (fields st (id self)) with
    | Some _ => <[id self := set_disposable (Some []) (fields st1 (id self))]> (nodes st1)
    | None => nodes st1
    end ∧
  views (dispose self st) = views st ∧
  subscribe_calls (dispose self st) = subscribe_calls st ∧
  trace (dispose self st) =
    trace st1 ++ match _disposable (fields st (id self)) with
                 | Some ds => map EvDispose ds
                 | None => []
                 end.
Proof.
  cbn zeta. unfold dispose. cbn zeta.
  assert (Hd : _disposable (fields (unsubscribe self st).2 (id self)) =
               _disposable (fields st (id self))).
  { rewrite unsubscribe_nodes.
    destruct (_subscription (fields st (id self))); [by st_simpl|done]. }
  rewrite Hd. destruct (_disposable (fields st (id self))) as [ds|].
  - destruct (foldl_emit_frame EvDispose ds (unsubscribe self st).2)
      as (Hn & _ & _ & Ht). cbn zeta in *.
    cbn [nodes views subscribe_calls trace upd_node]. rewrite Hn, Ht.
    assert (Hv : forall l s,
              views (foldl (fun st d => emit (EvDispose d) st) s l) = views s ∧
              subscribe_calls (foldl (fun st d => emit (EvDispose d) st) s l)
                = subscribe_calls s).
    { induction l as [|d l IH]; intros s; cbn [foldl]; [done|].
      destruct (IH (emit (EvDispose d) s)) as [-> ->]. done. }
    destruct (Hv ds (unsubscribe self st).2) as [-> ->].
    by rewrite unsubscribe_views, unsubscribe_subscribe_calls.
  - by rewrite unsubscribe_views, unsubscribe_subscribe_calls, app_nil_r.
Qed.

(** What [dispose()] leaves in the fields of the node: the subscription
    slot is empty and the composite spent; the rest is as it was. *)
Lemma dispose_fields self st :
  let f := fields st (id self) in
  fields (dispose self st) (id self) =
    set_disposable (match _disposable f with Some _ => Some [] | None => None end)
      (set_subscription None f).
Proof.
  cbn zeta. destruct (dispose_unfold self st) as (Hn & _). cbn zeta in Hn.
  rewrite Hn, unsubscribe_nodes.
  destruct (nodes st !!! id self) as [sp gt dsp sub cs stt ge h1 h2] eqn:Hf.
  destruct dsp as [ds|], sub as [p|]; cbn [_disposable _subscription];
    st_simpl; rewrite ?Hf; done.
Qed.

(** X11: a second [dispose()] releases nothing again.  The first one
    empties the subscription slot and runs the composite in
    [_disposable], which lets go of the registrations it combined; the
    second one therefore finds nothing to unsubscribe, so its
    [unsubscribe] returns at once, and a composite with nothing left to
    dispose: it adds the call of [unsubscribe] to the trace and no
    disposal, and it changes no field of any node. *)
Theorem dispose_twice_disposes_once (self : ViewNode) (st : State)
    (ds : list Disposable) :
  _disposable (fields st (id self)) = Some ds ->
  let st1 := dispose self st in
  let st2 := dispose self st1 in
  _disposable (fields st1 (id self)) = Some [] ∧
  _subscription (fields st1 (id self)) = None ∧
  trace st2 =
    trace st1 ++ [EvCall MUnsubscribe (id self); EvReturn MUnsubscribe (id self)] ∧
  disposals (trace st2) = disposals (trace st1) ∧
  nodes st2 = nodes st1.
Proof.
  intros Hd. cbn zeta.
  pose proof (dispose_fields self st) as Hf. cbn zeta in Hf. rewrite Hd in Hf.
  assert (Hd1 : _disposable (fields (dispose self st) (id self)) = Some [])
    by (by rewrite Hf).
  assert (Hs1 : _subscription (fields (dispose self st) (id self)) = None)
    by (by rewrite Hf).
  destruct (dispose_unfold self (dispose self st)) as (Hn2 & _ & _ & Ht).
  cbn zeta in Hn2, Ht.
  assert (Ht2 : trace (dispose self (dispose self st)) =
                trace (dispose self st) ++
                [EvCall MUnsubscribe (id self); EvReturn MUnsubscribe (id self)]).
  { rewrite Ht, Hd1, unsubscribe_trace, Hs1. cbn [map]. by rewrite app_nil_r. }
  split; [done|]. split; [done|]. split; [done|]. split.
  - rewrite Ht2, disposals_app. cbn. by rewrite app_nil_r.
  - rewrite Hn2, Hd1, unsubscribe_nodes, Hs1.
    destruct (dispose_unfold self st) as (Hn1 & _). cbn zeta in Hn1.
    rewrite Hd in Hn1.
    assert (Hx : set_disposable (Some []) (fields (dispose self st) (id self)) =
                 fields (dispose self st) (id self)) by (by rewrite Hf).
    rewrite Hx, Hn1, lookup_total_insert_eq, insert_insert_eq. done.
Qed.

Lemma dispose_twice_disposes_once_witness :
  disposals (trace (dispose leaf (dispose leaf constructed))) =
    [DListener OnDidChangeVisibility 0 3; DListener OnDidChangeNodeState 0 3].
Proof.
  destruct (dispose_twice_disposes_once leaf constructed
              [DListener OnDidChangeVisibility 0 3; DListener OnDidChangeNodeState 0 3])
    as (_ & _ & _ & H & _); [vm_compute; reflexivity|].
  rewrite H. vm_compute. reflexivity.
Defined.

(** X12: [dispose()] does not stop a node from subscribing again.  It
    changes neither [canSubscribe] nor the view, so a node that was
    eligible still is; with no evaluation in flight the next
    [ensureSubscription] finds the slot empty and calls [subscribe()]. *)
Theorem dispose_then_ensureSubscription_subscribes
    (subscribe : NodeId -> nat -> SubResult) (self : ViewNode) (st : State) :
  eligible st self = true ->
  gate GEnsureSubscription (fields st (id self)) = None ->
  let st1 := dispose self st in
  eligible st1 self = true ∧
  subscribe_calls (ensureSubscription subscribe self st1).2 = S (subscribe_calls st) ∧
  subscribes (trace (ensureSubscription subscribe self st1).2) =
    subscribes (trace st1) ++ [(id self, subscribe_calls st)].
Proof.
  intros He Hg. cbn zeta.
  destruct (dispose_unfold self st) as (_ & Hv & Hc & _).
  pose proof (dispose_fields self st) as Hfld. cbn zeta in Hfld.
  assert (He1 : eligible (dispose self st) self = true).
  { unfold eligible in *. rewrite Hv, Hfld. exact He. }
  assert (Hg1 : gate GEnsureSubscription (fields (dispose self st) (id self)) = None).
  { rewrite Hfld. exact Hg. }
  assert (Hs1 : _subscription (fields (dispose self st) (id self)) = None).
  { by rewrite Hfld. }
  destruct (ensureSubscription_subscribes subscribe self (dispose self st) Hg1 He1 Hs1)
    as (H1 & H2 & _).
  rewrite Hc in H1, H2. done.
Qed.

Lemma dispose_then_ensureSubscription_subscribes_witness :
  subscribe_calls (ensureSubscription subscribe_resource leaf
                     (dispose leaf subscribed_visible)).2 = 2.
Proof.
  destruct (dispose_then_ensureSubscription_subscribes subscribe_resource leaf
              subscribed_visible) as (_ & H & _); [vm_compute; reflexivity..|exact H].
Defined.

(** ** The auto-refresh handler *)



(** ** Context values and string forms *)

(** X14: the context values are pairwise distinct strings, and each one
    starts with [gitlens:]. *)
Theorem ContextValues_distinct (c c' : ContextValues) :
  (ContextValues_value c = ContextValues_value c' ↔ c = c') ∧
  exists s, ContextValues_value c = "gitlens:" +:+ s.
Proof.
  split; [split|].
  - destruct c, c'; intros H; first [reflexivity|discriminate H].
  - by intros ->.
  - destruct c; eexists; reflexivity.
Qed.




(** ** What the methods leave alone *)

Lemma gated_refresh_only m n body st :
  (forall st0, exists tr, frame st0 (body st0).2 tr ∧
                          Forall (fun e => is_refresh_event e = true) tr) ->
  exists tr, frame st (gated m n body st).2 tr ∧
             Forall (fun e => is_refresh_event e = true) tr.
Proof.
  intros Hbody. unfold gated. destruct (gate m _).
  - exists []. split; [apply frame_refl|done].
  - destruct (Hbody st) as (tr & (Hv & Hc & Hn & Ht) & Hr). destruct (body st) as [r st1].
    exists tr. split; [|done]. unfold frame. st_simpl. st_simpl_in Hv. st_simpl_in Hc.
    st_simpl_in Hn. st_simpl_in Ht. repeat split; try done.
    by apply same_modulo_gates_insert.
Qed.

(** X16: [triggerChange] does nothing but refresh.  On any node and in any
    state, the only calls it makes are [triggerChange] on ancestors and
    the host's [refreshNode]: it never subscribes or disposes, it leaves
    the views alone, and the only node fields it assigns are gate
    slots. *)
Theorem triggerChange_only_refreshes (self : ViewNode) (reset force : bool)
    (st : State) :
  exists tr,
    trace (triggerChange self reset force st).2 = trace st ++ tr ∧
    Forall (fun e => is_refresh_event e = true) tr ∧
    subscribes (trace (triggerChange self reset force st).2) = subscribes (trace st) ∧
    disposals (trace (triggerChange self reset force st).2) = disposals (trace st) ∧
    views (triggerChange self reset force st).2 = views st ∧
    same_modulo_gates (nodes st) (nodes (triggerChange self reset force st).2).
Proof.
  assert (H : exists tr, frame st (triggerChange self reset force st).2 tr ∧
                         Forall (fun e => is_refresh_event e = true) tr).
  { revert st. induction self as [i v|i v p IH] using ViewNode_parent_ind; intros st;
      rewrite triggerChange_unfold.
    - destruct (gated_refresh_only GTriggerChange i
        (fun st0 => match splatted (fields st0 i), @None ViewNode with
                    | true, Some p => triggerChange p reset force st0
                    | _, _ => refreshNode v i reset force st0
                    end) (emit (EvCall MTriggerChange i) st)) as (tr & Hfr & Hr).
      { intros st0. exists [EvRefreshNode v i reset force].
        split; [|by repeat constructor].
        destruct (splatted _); apply refreshNode_frame. }
      exists (EvCall MTriggerChange i :: tr). split; [|by constructor].
      destruct Hfr as (Hv & Hc & Hn & Ht). st_simpl_in Hv. st_simpl_in Hc.
      st_simpl_in Hn. st_simpl_in Ht. cbn [id parent view].
      repeat split; try done. by rewrite Ht, <- app_assoc.
    - destruct (gated_refresh_only GTriggerChange i
        (fun st0 => match splatted (fields st0 i), Some p with
                    | true, Some p => triggerChange p reset force st0
                    | _, _ => refreshNode v i reset force st0
                    end) (emit (EvCall MTriggerChange i) st)) as (tr & Hfr & Hr).
      { intros st0. destruct (splatted _).
        - apply IH.
        - exists [EvRefreshNode v i reset force].
          split; [apply refreshNode_frame|by repeat constructor]. }
      exists (EvCall MTriggerChange i :: tr). split; [|by constructor].
      destruct Hfr as (Hv & Hc & Hn & Ht). st_simpl_in Hv. st_simpl_in Hc.
      st_simpl_in Hn. st_simpl_in Ht. cbn [id parent view].
      repeat split; try done. by rewrite Ht, <- app_assoc. }
  destruct H as (tr & (Hv & Hc & Hn & Ht) & Hr). exists tr.
  assert (Hnone : subscribes tr = [] ∧ disposals tr = []).
  { clear -Hr. induction Hr as [|e tr He _ [IH1 IH2]]; [done|].
    destruct e as [[] ?| | | | | | | |]; try discriminate; by split. }
  destruct Hnone as [Hs Hd].
  repeat split; try done.
  - rewrite Ht. unfold subscribes in *. by rewrite omap_app, Hs, app_nil_r.
  - by rewrite Ht, disposals_app, Hd, app_nil_r.
Qed.

(** X17: [ensureSubscription] stays on its node.  In any state, it never
    calls [triggerChange] or the host's [refreshNode], it leaves the views
    alone, and it leaves every field of every other node as it was, gate
    slots included; on its own node it assigns nothing but the
    subscription slot and the gate slot. *)
Theorem ensureSubscription_stays_on_node (subscribe : NodeId -> nat -> SubResult)
    (self : ViewNode) (st : State) :
  let st' := (ensureSubscription subscribe self st).2 in
  refreshes (trace st') = refreshes (trace st) ∧
  views st' = views st ∧
  (forall n : NodeId, n ≠ id self -> fields st' n = fields st n) ∧
  erase_gates (set_subscription None (fields st' (id self))) =
    erase_gates (set_subscription None (fields st (id self))).
Proof.
  cbn zeta.
  destruct (ensureSubscription_trace subscribe self st) as (tr & Ht & Hnr).
  destruct (ensureSubscription_nodes subscribe self st) as [Hv Hn]. cbn zeta in *.
  split; [|split; [done|split]].
  - rewrite Ht. unfold refreshes. rewrite omap_app. cbn [omap list_omap].
    assert (Hnone : omap (fun e => match e with
                                   | EvRefreshNode v n r f => Some (v, n, r, f)
                                   | _ => None
                                   end) tr = []).
    { clear -Hnr. induction Hnr as [|e tr He _ IH]; [done|].
      cbn. destruct e; try discriminate; done. }
    by rewrite Hnone, app_nil_r.
  - intros n Hne. by apply Hn.
  - apply Hn.
Qed.

(** ** Switching [canSubscribe] off *)

(** X18: switching [canSubscribe] off on a subscribed node, run to its
    end.  On a node whose slot holds a promise fulfilled with a
    [Disposable], with nothing in flight and no job waiting, whatever the
    view says: the setter stores the flag and starts the teardown, and
    three jobs later the [Disposable] has been disposed, exactly once,
    before [ensureSubscription] returned; the slot is empty, the gate is
    free and no refresh was asked for. *)
Theorem canSubscribe_off_tears_down (subscribe : NodeId -> nat -> SubResult)
    (self : ViewNode) (st : State) (p : PromiseId) (d : Disposable) :
  canSubscribe st self = true ->
  gate GEnsureSubscription (fields st (id self)) = None ->
  _subscription (fields st (id self)) = Some p ->
  promise st p = Settled (Fulfilled (Some d)) ->
  p < next_promise st ->
  microtasks st = [] ->
  let st2 := drain 3 (set_canSubscribe subscribe self false st) in
  trace st2 = trace st ++
    [EvCall MEnsureSubscription (id self); EvCall MUnsubscribe (id self);
     EvDispose d;
     EvReturn MUnsubscribe (id self); EvReturn MEnsureSubscription (id self)] ∧
  canSubscribe st2 self = false ∧
  _subscription (fields st2 (id self)) = None ∧
  gate GEnsureSubscription (fields st2 (id self)) = None ∧
  microtasks st2 = [] ∧
  subscribe_calls st2 = subscribe_calls st.
Proof.
  intros Hc Hg Hs Hp Hlt Hq. cbn zeta. unfold set_canSubscribe, canSubscribe in *.
  rewrite Hc. cbn [eqb]. cbn zeta.
  rewrite ensureSubscription_not_eligible;
    [|by st_simpl; fld_simpl|by unfold eligible; st_simpl; fld_simpl].
  cbn [fst snd]. rewrite unsubscribe_unfold. st_simpl. fld_simpl. rewrite Hs.
  cbn [fst snd]. open_state st.
  eval_drain; fld_simpl;
    repeat (rewrite lookup_total_insert_ne by lia);
    rewrite ?lookup_total_insert_eq, <- ?app_assoc; by repeat split.
Qed.

Lemma canSubscribe_off_tears_down_witness :
  trace (drain 3 (set_canSubscribe subscribe_resource leaf false subscribed_visible)) =
    [EvCall MEnsureSubscription 3; EvCall MUnsubscribe 3; EvDispose (DResource 5);
     EvReturn MUnsubscribe 3; EvReturn MEnsureSubscription 3].
Proof.
  destruct (canSubscribe_off_tears_down subscribe_resource leaf subscribed_visible 0
              (DResource 5)) as [H _];
    [vm_compute; try reflexivity; lia..|exact H].
Defined.

